(** * skbio.sequence._nucleotide_sequence

    A shallow embedding of [NucleotideSequence] (complement,
    reverse complement, reverse-complement test) and of the motif
    detectors registered by the module, with the properties that the
    specification states about them. *)

From Stdlib Require Import ZArith Ascii String.
From stdpp Require Import gmap strings list sorting.

Local Open Scope string_scope.
Local Open Scope nat_scope.
Local Open Scope list_scope.

(** ** Python values and exceptions *)

(** The exceptions that the modelled code can raise.  [KeyError] carries
    the key that was looked up; [UnknownMotif] and [InvalidInput] are the
    error kinds that the specification names for the motif lookup and for
    the coercion of a comparison argument. *)
Inductive exception : Type :=
| KeyError (key : ascii)
| TypeError (message : string)
| UnknownMotif (name : string)
| InvalidInput (message : string).

(** Python's [LookupError] is the base class of [KeyError]; the
    specification puts [UnknownMotif] in the same class.  [TypeError] is
    not a [LookupError]. *)
Definition is_LookupError (e : exception) : bool :=
  match e with
  | KeyError _ | UnknownMotif _ => true
  | TypeError _ | InvalidInput _ => false
  end.

(** The symbol that an exception identifies, if any. *)
Definition offending_symbol (e : exception) : option ascii :=
  match e with
  | KeyError key => Some key
  | _ => None
  end.

(** A computation either returns a value or raises. *)
Inductive result (A : Type) : Type :=
| Ok (value : A)
| Raise (e : exception).
Arguments Ok {A} value.
Arguments Raise {A} e.

Global Instance result_ret : MRet result := λ A a, Ok a.
Global Instance result_bind : MBind result := λ A B k m,
  match m with
  | Ok a => k a
  | Raise e => Raise e
  end.

(** A list comprehension [[f x for x in l]]: the elements are evaluated
    in iteration order and the first exception ends the evaluation. *)
Fixpoint comprehension {A B : Type} (f : A → result B) (l : list A)
  : result (list B) :=
  match l with
  | [] => Ok []
  | x :: l' =>
      y ← f x ;
      ys ← comprehension f l';
      mret (y :: ys)
  end.

(** The objects that the class property [complement_map] evaluates to:
    a [dict] from symbols to symbols, as the property documents, or a
    [set], the kind of object in the body of the abstract property
    ([return set()]), for a class that supplies one. *)
Inductive pyobject : Type :=
| PyDict (d : gmap ascii ascii)
| PySet (s : gset ascii).

(** [obj[key]]: a dict raises [KeyError(key)] on a missing key; a set has
    no subscript operation and raises [TypeError]. *)
Definition getitem (obj : pyobject) (key : ascii) : result ascii :=
  match obj with
  | PyDict d =>
      match d !! key with
      | Some v => Ok v
      | None => Raise (KeyError key)
      end
  | PySet _ => Raise (TypeError "'set' object is not subscriptable")
  end.

(** The entry of a symbol in a complement map; a set has no entries. *)
Definition entry (obj : pyobject) (key : ascii) : option ascii :=
  match obj with
  | PyDict d => d !! key
  | PySet _ => None
  end.

(** ** The sequence container *)

(** A sequence class, as far as this module reads it: its name and the
    value of its class property [complement_map].  These are the
    concrete subclasses: [NucleotideSequence] itself is abstract (its
    [complement_map] is an abstract property) and has no instances. *)
Record SequenceClass : Type := {
  __name__ : string;
  complement_map : pyobject
}.

(** Modelled from the spec: the sequence container ([Sequence] and
    [IUPACSequence], which are not in this module).  A sequence is an
    immutable string of symbols with an identifier, a description and
    optional quality scores, one per symbol. *)
Record Sequence : Type := {
  type : SequenceClass;
  _string : string;
  id : string;
  description : string;
  quality : option (list Z)
}.

(** [len(self)] *)
Definition len (self : Sequence) : nat := String.length (_string self).

(** [iter(self)]: the symbols in forward order.  Each item is a
    sequence of length one in the code; [str(base)] is its symbol. *)
Definition iter (self : Sequence) : list ascii :=
  list_ascii_of_string (_string self).

(** [reversed(self)] *)
Definition reversed (self : Sequence) : list ascii := reverse (iter self).

(** [''.join(result)] for a list of one-symbol strings. *)
Definition join (symbols : list ascii) : string :=
  string_of_list_ascii symbols.

(** [self._has_quality()] *)
Definition _has_quality (self : Sequence) : bool :=
  match quality self with
  | Some _ => true
  | None => false
  end.

(** [self.quality[::-1]] *)
Definition quality_reversed (self : Sequence) : option (list Z) :=
  match quality self with
  | Some q => Some (reverse q)
  | None => None
  end.

(** Modelled from the spec: [self._to(sequence=..., quality=...)], the
    container's operation that rebuilds a sequence of the same variant
    with new symbols and quality; identifier and description are copied
    unchanged. *)
Definition _to (self : Sequence) (sequence : string)
    (quality : option (list Z)) : Sequence :=
  {| type := type self;
     _string := sequence;
     id := id self;
     description := description self;
     quality := quality |}.

(** ** NucleotideSequence *)

(** [NucleotideSequence.complement] *)
Definition complement (self : Sequence) (reverse : bool)
  : result Sequence :=
  let complement_map := complement_map (type self) in
  let seq_iterator := if reverse then reversed self else iter self in
  result ← comprehension (λ base, getitem complement_map base) seq_iterator;
  let quality :=
    if _has_quality self && reverse then quality_reversed self
    else quality self in
  Ok (_to self (join result) quality).

(** [NucleotideSequence.reverse_complement] *)
Definition reverse_complement (self : Sequence) : result Sequence :=
  complement self true.

Section IsReverseComplement.

(** The loosely typed second argument of [is_reverse_complement] and
    the container's coercion helper [_munge_to_sequence], which is not
    in this module: it returns a sequence or raises. *)
Variable Other : Type.
Variable _munge_to_sequence :
  Sequence → Other → string → result Sequence.

(** [NucleotideSequence.is_reverse_complement] *)
Definition is_reverse_complement (self : Sequence) (other : Other)
  : result bool :=
  other ← _munge_to_sequence self other "is_reverse_complement";
  if bool_decide (len self ≠ len other) then Ok false
  else
    rc ← reverse_complement self;
    Ok (bool_decide (_string rc = _string other)).

End IsReverseComplement.

(** Modelled from the spec: the complement map of the DNA variant, which
    is defined outside this module.  The specification gives the
    complement of ACGT under the standard DNA mapping as TGCA. *)
Definition dna_complement_map : gmap ascii ascii :=
  <["A"%char := "T"%char]> (<["C"%char := "G"%char]>
  (<["G"%char := "C"%char]> (<["T"%char := "A"%char]> ∅))).

Definition DNA : SequenceClass :=
  {| __name__ := "DNA"; complement_map := PyDict dna_complement_map |}.

(** The quality that [complement] hands to [_to]. *)
Definition complement_quality_of (self : Sequence) (reverse : bool)
  : option (list Z) :=
  if _has_quality self && reverse then quality_reversed self
  else quality self.

(** A coercion on which [is_reverse_complement] is exercised: a string
    becomes a sequence of the same class without quality. *)
Definition munge_string (self : Sequence) (other : string) (method : string)
  : result Sequence :=
  Ok {| type := type self; _string := other; id := ""; description := "";
        quality := None |}.

(** ** Motifs *)

(** A match span: the half-open range [[start, stop)] of positions of a
    Python [slice]. *)
Record slice : Type := Slice { start : nat; stop : nat }.

(** The regular expressions that this module builds, ["([%s]{%d,})"]:
    one group around at least [at_least] consecutive symbols of the
    character class [chars]. *)
Record regex : Type := ClassRun { chars : list ascii; at_least : nat }.

(** ["([chars]{%d,})" % min_length] *)
Definition class_run (chars : string) (min_length : nat) : regex :=
  ClassRun (list_ascii_of_string chars) min_length.

(** The number of leading symbols of [text] that are in the class. *)
Fixpoint run_length (chars text : list ascii) : nat :=
  match text with
  | c :: rest =>
      if bool_decide (c ∈ chars) then S (run_length chars rest) else 0
  | [] => 0
  end.

(** A match attempt of Python's [re] at the start of [text]: the
    quantifier is greedy, so the group takes all leading symbols of the
    class, and the attempt fails when there are fewer than [at_least]. *)
Definition match_here (re : regex) (text : list ascii) : option nat :=
  let k := run_length (chars re) text in
  if at_least re <=? k then Some k else None.

(** [re.finditer]: the non-overlapping matches from left to right.
    [pos] is the position of [text] in the scanned string.  An attempt
    is made at [pos]; after a failure the scan moves one symbol on, after
    a match it resumes where the match ended ([skip] counts the symbols
    of a match that remain to be passed over; after an empty match the
    scan moves one symbol on, as Python 3.7 and later do). *)
Fixpoint finditer_from (re : regex) (pos skip : nat) (text : list ascii)
    {struct text} : list slice :=
  match skip with
  | S skip' =>
      match text with
      | [] => []
      | _ :: rest => finditer_from re (S pos) skip' rest
      end
  | 0 =>
      match match_here re text with
      | Some k =>
          Slice pos (pos + k) ::
          match text with
          | [] => []
          | _ :: rest => finditer_from re (S pos) (pred k) rest
          end
      | None =>
          match text with
          | [] => []
          | _ :: rest => finditer_from re (S pos) 0 rest
          end
      end
  end.

Definition finditer (re : regex) (text : list ascii) : list slice :=
  finditer_from re 0 0 text.

(** Two spans share a position. *)
Definition overlaps (a b : slice) : bool :=
  Nat.max (start a) (start b) <? Nat.min (stop a) (stop b).

(** The two ways of applying excluded spans that the specification
    names and leaves open: a filter on the matches found in the whole
    text, or the removal of the excluded positions from the text before
    matching. *)
Inductive exclusion_policy : Type :=
| FilterMatches
| DeleteBeforeMatching.

(** A position lies in one of the spans. *)
Definition in_spans (spans : list slice) (p : nat) : bool :=
  existsb (λ e, (start e <=? p) && (p <? stop e)) spans.

(** The positions and symbols of a text that lie in none of the spans,
    in order; [pos] is the position of the first symbol of [text]. *)
Fixpoint searchable (spans : list slice) (pos : nat) (text : list ascii)
  : list (nat * ascii) :=
  match text with
  | [] => []
  | c :: rest =>
      if in_spans spans pos then searchable spans (S pos) rest
      else (pos, c) :: searchable spans (S pos) rest
  end.

(** The span in the sequence of a match found in the searchable text:
    from the position of its first symbol to just after the position of
    its last. *)
Definition span_of_match (positions : list nat) (m : slice) : slice :=
  Slice (nth (start m) positions 0) (S (nth (stop m - 1) positions 0)).

Section Container.

(** The policy of the container for excluded spans. *)
Variable policy : exclusion_policy.

(** Modelled from the spec: [Sequence.slices_from_regex], the
    container's scanning primitive, which is not in this module.  It
    yields the span of the group of every match of the expression in
    the symbols of the sequence.  With excluded spans it follows the
    policy of the container: it skips the matches that share a position
    with an excluded span, or it matches in the text without the
    excluded positions and reports the spans in the positions of the
    sequence. *)
Definition slices_from_regex (self : Sequence) (re : regex)
    (exclude : option (list slice)) : list slice :=
  match exclude with
  | None => finditer re (iter self)
  | Some spans =>
      match policy with
      | FilterMatches =>
          filter (λ m, forallb (λ e, negb (overlaps m e)) spans)
            (finditer re (iter self))
      | DeleteBeforeMatching =>
          let kept := searchable spans 0 (iter self) in
          span_of_match kept.*1 <$> finditer re kept.*2
      end
  end.

(** A motif detector takes the sequence, the minimum length and the
    excluded spans. *)
Definition detector : Type :=
  Sequence → nat → option (list slice) → list slice.

(** Modelled from the spec: the motif registry ([MiniRegistry], which is
    not in this module), a mapping from motif names to detectors that
    keeps the order of registration. *)
Definition MiniRegistry : Type := list (string * detector).

(** [registry.copy()]: an independent copy for a descendant family. *)
Definition copy (registry : MiniRegistry) : MiniRegistry := registry.

(** [@registry(name)] applied to a detector.  The module registers two
    distinct names on the copy of an empty registry; registering a name
    twice is a programming error and is not modelled. *)
Definition register (name : string) (f : detector) (registry : MiniRegistry)
  : MiniRegistry :=
  registry ++ [(name, f)].

(** [registry[name]] *)
Fixpoint registry_lookup (name : string) (registry : MiniRegistry)
  : option detector :=
  match registry with
  | [] => None
  | (name', f) :: registry' =>
      if bool_decide (name' = name) then Some f
      else registry_lookup name registry'
  end.

(** Modelled from the spec: the registry of the parent family
    ([_iupac_sequence._motifs]), which is empty. *)
Definition parent_motifs : MiniRegistry := [].

(** [_motif_purine_run] *)
Definition _motif_purine_run : detector := λ sequence min_length exclude,
  slices_from_regex sequence (class_run "AGR" min_length) exclude.

(** [_motif_pyrimidine_run] *)
Definition _motif_pyrimidine_run : detector := λ sequence min_length exclude,
  slices_from_regex sequence (class_run "CTUY" min_length) exclude.

(** The module-level [_motifs]: the copy of the parent registry with the
    two detectors registered in the order of the module.  (The final
    [_motifs.interpolate] only edits the docstring of [find_motifs].) *)
Definition _motifs : MiniRegistry :=
  register "pyrimidine-run" _motif_pyrimidine_run
    (register "purine-run" _motif_purine_run (copy parent_motifs)).

End Container.

(** Modelled from the spec: [find_motifs], which the parent class
    defines over the registry of the family.  With a name it runs that
    detector, or fails with [UnknownMotif] when the name is not
    registered; without a name it runs every detector in registration
    order and chains their spans. *)
Definition find_motifs (motifs : MiniRegistry) (self : Sequence)
    (name : option string) (min_length : nat)
    (exclude : option (list slice)) : result (list slice) :=
  match name with
  | Some name =>
      match registry_lookup name motifs with
      | Some f => Ok (f self min_length exclude)
      | None => Raise (UnknownMotif name)
      end
  | None =>
      Ok (concat ((λ entry, entry.2 self min_length exclude) <$> motifs))
  end.

(** ** Runs, as the specification words them *)

(** The positions [[i, j)] of [text] are a non-empty run of symbols of
    the class. *)
Definition is_run (chars text : list ascii) (i j : nat) : Prop :=
  i < j ∧ j ≤ length text ∧
  ∀ p c, i ≤ p < j → text !! p = Some c → c ∈ chars.

(** A run is maximal when the symbol before it and the symbol after it,
    where there is one, are not in the class. *)
Definition maximal_run (chars text : list ascii) (i j : nat) : Prop :=
  is_run chars text i j ∧
  (∀ p c, S p = i → text !! p = Some c → c ∉ chars) ∧
  (∀ c, text !! j = Some c → c ∉ chars).

(** A span lies outside the excluded spans when none of its positions is
    in one of them. *)
Definition outside (exclude : option (list slice)) (m : slice) : Prop :=
  ∀ spans e p, exclude = Some spans → e ∈ spans →
               start m ≤ p < stop m → ¬ (start e ≤ p < stop e).

(** The positions and symbols outside the excluded spans. *)
Definition unexcluded (exclude : option (list slice)) (text : list ascii)
  : list (nat * ascii) :=
  searchable (default [] exclude) 0 text.

(** A maximal run of at least [n] symbols of the class outside the
    excluded spans, as each policy reads it: a maximal run of the text
    none of whose positions is excluded, or a maximal run of the symbols
    outside the excluded spans, reported from the position of its first
    symbol to just after the position of its last. *)
Definition motif_occurrence (policy : exclusion_policy)
    (chars text : list ascii) (exclude : option (list slice)) (n : nat)
    (m : slice) : Prop :=
  match policy with
  | FilterMatches =>
      maximal_run chars text (start m) (stop m) ∧
      n ≤ stop m - start m ∧ outside exclude m
  | DeleteBeforeMatching =>
      ∃ i j, maximal_run chars (unexcluded exclude text).*2 i j ∧
             n ≤ j - i ∧
             m = span_of_match (unexcluded exclude text).*1 (Slice i j)
  end.

(** ** The scan, seen from inside a text *)

(** [mrun] is [maximal_run] for a text that follows a symbol: [prev]
    tells whether that symbol is in the class, in which case no maximal
    run starts at position 0. *)
Definition mrun (cls : list ascii) (prev : bool) (text : list ascii)
    (i j : nat) : Prop :=
  maximal_run cls text i j ∧ (i = 0 → prev = false).

(** What the scan knows when it stands before [text]: at an attempt, a
    text that follows a symbol of the class starts with fewer than
    [at_least] symbols of the class; while passing over a match, the
    text starts with just the symbols that remain of it. *)
Definition scan_inv (re : regex) (prev : bool) (text : list ascii)
    (skip : nat) : Prop :=
  match skip with
  | 0 => prev = true → run_length (chars re) text < at_least re
  | S _ => prev = true ∧ run_length (chars re) text = skip
  end.

(** * Properties *)

(** ** Strings and comprehensions *)

Lemma iter_join (self : Sequence) (symbols : list ascii) (q : option (list Z)) :
  iter (_to self (join symbols) q) = symbols.
Proof. apply list_ascii_of_string_of_list_ascii. Qed.

Lemma join_iter (self : Sequence) : join (iter self) = _string self.
Proof. apply string_of_list_ascii_of_string. Qed.

Lemma length_iter (self : Sequence) : length (iter self) = len self.
Proof.
  unfold iter, len. induction (_string self) as [|c s IH]; simpl; congruence.
Qed.

Lemma iter_nil (self : Sequence) : _string self = "" ↔ iter self = [].
Proof.
  unfold iter. destruct (_string self); simpl; split; congruence.
Qed.

Section Comprehension.
Context {A B : Type} (f : A → result B).

Lemma comprehension_Ok (l : list A) (l' : list B) :
  comprehension f l = Ok l' ↔ Forall2 (λ x y, f x = Ok y) l l'.
Proof.
  revert l'. induction l as [|x l IH]; intros l'; simpl.
  - split.
    + intros [= <-]. constructor.
    + intros H. inversion H. reflexivity.
  - split.
    + destruct (f x) as [y|e] eqn:Hx; simpl; [|discriminate].
      destruct (comprehension f l) as [ys|e] eqn:Hl; simpl; [|discriminate].
      intros [= <-]. constructor; [assumption|]. by apply IH.
    + intros H. inversion H as [|x0 y l0 ys Hx Hl]; subst.
      rewrite Hx. simpl. apply IH in Hl. rewrite Hl. reflexivity.
Qed.

(** A comprehension raises exactly the exception of the first item, in
    iteration order, on which the body raises. *)
Lemma comprehension_Raise (l : list A) (e : exception) :
  comprehension f l = Raise e ↔
  ∃ l1 x l2, l = l1 ++ x :: l2 ∧ Forall (λ x, ∃ y, f x = Ok y) l1 ∧
             f x = Raise e.
Proof.
  induction l as [|x l IH]; simpl.
  - split; [discriminate|]. intros (l1 & x & l2 & Hl & _).
    by destruct l1.
  - destruct (f x) as [y|e'] eqn:Hx; simpl.
    + destruct (comprehension f l) as [ys|e'] eqn:Hl; simpl.
      * split; [discriminate|].
        intros ([|x1 l1] & x' & l2 & Heq & Hall & Hx'); simplify_eq/=;
          [congruence|].
        inversion Hall; subst.
        enough (Ok ys = Raise e) by done.
        apply IH. eauto 6.
      * split.
        -- intros [= ->].
           destruct (proj1 IH eq_refl) as (l1 & x' & l2 & -> & Hall & Hx').
           exists (x :: l1), x', l2. split_and!; [done| |done].
           constructor; eauto.
        -- intros ([|x1 l1] & x' & l2 & Heq & Hall & Hx'); simplify_eq/=;
             [congruence|].
           inversion Hall; subst. apply IH. eauto 6.
    + split.
      * intros [= ->]. exists [], x, l. split_and!; [done|constructor|done].
      * intros ([|x1 l1] & x' & l2 & Heq & Hall & Hx'); simplify_eq/=;
          [congruence|].
        inversion Hall as [|? ? [y Hy]]; subst. congruence.
Qed.

Lemma comprehension_length (l : list A) (l' : list B) :
  comprehension f l = Ok l' → length l' = length l.
Proof.
  intros H. apply comprehension_Ok in H. symmetry. by eapply Forall2_length.
Qed.

End Comprehension.

(** ** Lookups in the complement map *)

Lemma getitem_Ok (obj : pyobject) (key value : ascii) :
  getitem obj key = Ok value ↔ entry obj key = Some value.
Proof.
  destruct obj as [d|s]; simpl; [|split; discriminate].
  destruct (d !! key); split; congruence.
Qed.

Lemma getitem_dict_Raise (d : gmap ascii ascii) (key : ascii) (e : exception) :
  getitem (PyDict d) key = Raise e ↔ d !! key = None ∧ e = KeyError key.
Proof.
  simpl. destruct (d !! key); split; try discriminate.
  - intros [? _]. discriminate.
  - intros [= <-]. done.
  - intros [_ ->]. done.
Qed.

Lemma getitem_set_Raise (s : gset ascii) (key : ascii) :
  ∃ message, getitem (PySet s) key = Raise (TypeError message).
Proof. eexists. reflexivity. Qed.

Lemma comprehension_getitem_total (obj : pyobject) (l : list ascii) :
  Forall (λ c, is_Some (entry obj c)) l →
  ∃ l', comprehension (getitem obj) l = Ok l'.
Proof.
  induction 1 as [|c l [c' Hc] _ [l' IH]]; simpl.
  - by eexists.
  - apply getitem_Ok in Hc. rewrite Hc. simpl. rewrite IH. simpl. by eexists.
Qed.

(** ** The shape of a complement *)

Lemma complement_Ok (self : Sequence) (reverse : bool) (r : Sequence) :
  complement self reverse = Ok r ↔
  ∃ symbols,
    comprehension (getitem (complement_map (type self)))
      (if reverse then reversed self else iter self) = Ok symbols ∧
    r = _to self (join symbols) (complement_quality_of self reverse).
Proof.
  unfold complement, complement_quality_of.
  destruct (comprehension _ _) as [symbols|e]; simpl.
  - split.
    + intros [= <-]. eauto.
    + intros (symbols' & [= <-] & ->). done.
  - split; [discriminate|]. intros (? & ? & _). discriminate.
Qed.

Lemma complement_Raise (self : Sequence) (reverse : bool) (e : exception) :
  complement self reverse = Raise e ↔
  comprehension (getitem (complement_map (type self)))
    (if reverse then reversed self else iter self) = Raise e.
Proof.
  unfold complement. destruct (comprehension _ _); simpl; split; congruence.
Qed.

Lemma complement_total (self : Sequence) (reverse : bool) :
  Forall (λ c, is_Some (entry (complement_map (type self)) c)) (iter self) →
  ∃ r, complement self reverse = Ok r.
Proof.
  intros Hall.
  assert (Forall (λ c, is_Some (entry (complement_map (type self)) c))
            (if reverse then reversed self else iter self)) as Hit.
  { destruct reverse; [|done]. unfold reversed. by apply Forall_reverse. }
  destruct (comprehension_getitem_total _ _ Hit) as [symbols Hs].
  eexists. apply complement_Ok. eauto.
Qed.

Lemma complement_len (self r : Sequence) (reverse : bool) :
  complement self reverse = Ok r → len r = len self.
Proof.
  intros (symbols & Hs & ->)%complement_Ok.
  rewrite <-!length_iter, iter_join.
  apply comprehension_length in Hs. rewrite Hs.
  destruct reverse; [|done]. unfold reversed. by rewrite length_reverse.
Qed.

(** When a symbol has no entry in a dict-valued complement map, the
    complement raises [KeyError] for the first such symbol in iteration
    order. *)
Lemma complement_dict_missing (self : Sequence) (reverse : bool)
    (d : gmap ascii ascii) :
  complement_map (type self) = PyDict d →
  Exists (λ c, d !! c = None) (iter self) →
  ∃ c, c ∈ iter self ∧ d !! c = None ∧
       complement self reverse = Raise (KeyError c) ∧
       is_LookupError (KeyError c) = true ∧
       offending_symbol (KeyError c) = Some c.
Proof.
  intros Hd Hex.
  assert (Exists (λ c, d !! c = None)
            (if reverse then reversed self else iter self)) as Hit.
  { destruct reverse; [|done]. unfold reversed.
    apply Exists_exists in Hex as (c & Hc & Hn).
    apply Exists_exists. exists c. split; [|done]. by apply elem_of_reverse. }
  assert (∀ c, c ∈ (if reverse then reversed self else iter self) →
               c ∈ iter self) as Hin.
  { intros c. destruct reverse; [|done]. unfold reversed.
    by rewrite elem_of_reverse. }
  destruct (comprehension (getitem (PyDict d))
              (if reverse then reversed self else iter self))
    as [symbols|e] eqn:Hc.
  - apply comprehension_Ok in Hc. exfalso.
    apply Exists_exists in Hit as (c & Hc' & Hn).
    apply list_elem_of_lookup in Hc' as [i Hi].
    destruct (Forall2_lookup_l _ _ _ _ _ Hc Hi) as (c' & _ & Hg).
    simpl in Hg. rewrite Hn in Hg. discriminate.
  - pose proof Hc as Hc'.
    apply comprehension_Raise in Hc' as (l1 & c & l2 & Hl & _ & Hg).
    apply getitem_dict_Raise in Hg as [Hn ->].
    exists c. split_and!; try done.
    + apply Hin. rewrite Hl. set_solver.
    + apply complement_Raise. by rewrite Hd.
Qed.

(** The symbols of a complement depend only on the class and on the
    symbols of the sequence, not on its quality or identity. *)
Lemma complement_symbols_only (self self' : Sequence) (reverse : bool) :
  type self' = type self → _string self' = _string self →
  match complement self reverse, complement self' reverse with
  | Ok r, Ok r' => _string r = _string r'
  | Raise e, Raise e' => e = e'
  | _, _ => False
  end.
Proof.
  intros Ht Hs. unfold complement, reversed, iter. rewrite Ht, Hs.
  destruct (comprehension _ _); simpl; done.
Qed.

Lemma comprehension_involution (obj : pyobject) (l : list ascii) :
  (∀ c, c ∈ l → ∃ c', entry obj c = Some c' ∧ entry obj c' = Some c) →
  ∃ l', comprehension (getitem obj) l = Ok l' ∧
        comprehension (getitem obj) (reverse l') = Ok (reverse l).
Proof.
  intros Hinv.
  assert (∃ l', Forall2 (λ c c', entry obj c = Some c' ∧ entry obj c' = Some c)
                  l l') as [l' Hl'].
  { induction l as [|c l IH].
    - exists []. constructor.
    - destruct (Hinv c) as [c' Hcc'].
      { apply elem_of_cons. by left. }
      destruct IH as [l' IH].
      { intros c0 Hc0. apply Hinv, elem_of_cons. by right. }
      exists (c' :: l'). by constructor. }
  exists l'. split.
  - apply comprehension_Ok. eapply Forall2_impl; [exact Hl'|].
    intros c c' [H _]. by apply getitem_Ok.
  - apply comprehension_Ok. apply Forall2_reverse, Forall2_flip.
    eapply Forall2_impl; [exact Hl'|].
    intros c c' [_ H]. by apply getitem_Ok.
Qed.

(** * The claims *)

(** C1. For the DNA sequence TTCATT with quality 0,1,2,3,4,5 (and any
    identifier and description), [complement] returns the DNA sequence
    AAGTAA with the same quality, and [complement] with [reverse] set
    returns AATGAA with quality 5,4,3,2,1,0; identifier and description
    are carried over. *)
Theorem complement_example_TTCATT (i d : string) :
  let s := {| type := DNA; _string := "TTCATT"; id := i; description := d;
              quality := Some [0; 1; 2; 3; 4; 5]%Z |} in
  complement s false =
    Ok {| type := DNA; _string := "AAGTAA"; id := i; description := d;
          quality := Some [0; 1; 2; 3; 4; 5]%Z |} ∧
  complement s true =
    Ok {| type := DNA; _string := "AATGAA"; id := i; description := d;
          quality := Some [5; 4; 3; 2; 1; 0]%Z |}.
Proof. split; vm_compute; reflexivity. Qed.

(** C2. For a sequence with quality [q]: every result of the reverse
    complement has quality [reverse q], and (when [q] has one score per
    symbol) the score and the symbol at output position [i] are the
    score and the complement of the symbol at input position
    [n - 1 - i]; every result of the forward complement has quality [q]
    unchanged; and a result exists for both directions when every symbol
    has an entry in the complement map. *)
Theorem complement_quality_alignment (self : Sequence) (q : list Z) :
  quality self = Some q →
  (∀ r, complement self true = Ok r →
     quality r = Some (reverse q) ∧
     (length q = len self → ∀ i, i < len self →
        reverse q !! i = q !! (len self - 1 - i) ∧
        ∃ c c', iter self !! (len self - 1 - i) = Some c ∧
                entry (complement_map (type self)) c = Some c' ∧
                iter r !! i = Some c')) ∧
  (∀ r, complement self false = Ok r → quality r = Some q) ∧
  (Forall (λ c, is_Some (entry (complement_map (type self)) c)) (iter self) →
   ∀ reverse, ∃ r, complement self reverse = Ok r).
Proof.
  intros Hq. split_and!.
  - intros r (symbols & Hs & ->)%complement_Ok.
    unfold complement_quality_of, _has_quality, quality_reversed.
    rewrite Hq. simpl. split; [done|].
    intros Hlen i Hi. split.
    + rewrite reverse_lookup by lia. f_equal. lia.
    + rewrite iter_join. apply comprehension_Ok in Hs.
      unfold reversed in Hs.
      assert (is_Some (reverse (iter self) !! i)) as [c Hc].
      { apply lookup_lt_is_Some. rewrite length_reverse, length_iter. lia. }
      destruct (Forall2_lookup_l _ _ _ _ _ Hs Hc) as (c' & Hc' & Hg).
      exists c, c'. split_and!; [|by apply getitem_Ok|done].
      rewrite reverse_lookup in Hc by (rewrite length_iter; lia).
      rewrite length_iter in Hc. rewrite <-Hc. f_equal. lia.
  - intros r (symbols & Hs & ->)%complement_Ok.
    unfold complement_quality_of. rewrite andb_false_r. done.
  - intros Hall reverse. by apply complement_total.
Qed.

Lemma complement_quality_alignment_witness :
  ∃ r, complement {| type := DNA; _string := "TTCATT"; id := "s";
                     description := "";
                     quality := Some [0; 1; 2; 3; 4; 5]%Z |} true = Ok r ∧
       quality r = Some [5; 4; 3; 2; 1; 0]%Z.
Proof.
  eexists. split; [vm_compute; reflexivity|].
  refine (proj1 (proj1 (complement_quality_alignment
    {| type := DNA; _string := "TTCATT"; id := "s"; description := "";
       quality := Some [0; 1; 2; 3; 4; 5]%Z |} [0; 1; 2; 3; 4; 5]%Z eq_refl)
    _ _)).
  vm_compute; reflexivity.
Defined.

(** C3. When every symbol of a sequence has an entry in the complement
    map and the map sends that entry back to the symbol, the reverse
    complement of the reverse complement exists and has the symbols of
    the sequence (it is the sequence itself). *)
Theorem reverse_complement_involution (self : Sequence) :
  (∀ c, c ∈ iter self →
        ∃ c', entry (complement_map (type self)) c = Some c' ∧
              entry (complement_map (type self)) c' = Some c) →
  ∃ rc rc2, reverse_complement self = Ok rc ∧
            reverse_complement rc = Ok rc2 ∧
            _string rc2 = _string self ∧ rc2 = self.
Proof.
  intros Hinv.
  destruct (comprehension_involution (complement_map (type self))
              (reversed self)) as (l' & Hl' & Hback).
  { intros c Hc. apply Hinv. by apply elem_of_reverse. }
  unfold reversed in Hback. rewrite reverse_involutive in Hback.
  set (rc := _to self (join l') (complement_quality_of self true)).
  assert (reverse_complement self = Ok rc) as Hrc.
  { apply complement_Ok. eauto. }
  assert (reverse_complement rc =
          Ok (_to rc (join (iter self)) (complement_quality_of rc true)))
    as Hrc2.
  { apply complement_Ok. exists (iter self). split; [|done].
    unfold reversed, rc. rewrite iter_join. exact Hback. }
  exists rc, (_to rc (join (iter self)) (complement_quality_of rc true)).
  split_and!; [done|done|apply join_iter|].
  rewrite join_iter. destruct self as [t s i d [q|]]; unfold rc, _to; simpl;
    unfold complement_quality_of, _has_quality, quality_reversed; simpl.
  - by rewrite reverse_involutive.
  - done.
Qed.

Lemma reverse_complement_involution_witness :
  ∃ rc rc2,
    reverse_complement {| type := DNA; _string := "TTCATT"; id := "s";
                          description := ""; quality := None |} = Ok rc ∧
    reverse_complement rc = Ok rc2 ∧
    _string rc2 = "TTCATT" ∧
    rc2 = {| type := DNA; _string := "TTCATT"; id := "s";
             description := ""; quality := None |}.
Proof.
  apply (reverse_complement_involution
    {| type := DNA; _string := "TTCATT"; id := "s"; description := "";
       quality := None |}).
  intros c Hc. vm_compute in Hc.
  repeat (apply elem_of_cons in Hc as [->|Hc];
          [eexists; split; vm_compute; reflexivity|]).
  by apply elem_of_nil in Hc.
Defined.

(** C4. With a dict for complement map, the empty dict that the
    specification gives the unspecialized variant included: when some
    symbol of the sequence has no entry, as every symbol of a non-empty
    sequence under the empty dict, [complement] returns no sequence and
    raises [KeyError], an error of the [LookupError] class, for the
    first symbol without entry in iteration order. *)
Theorem complement_missing_symbol_LookupError (self : Sequence)
    (reverse : bool) (d : gmap ascii ascii) :
  complement_map (type self) = PyDict d →
  Exists (λ c, d !! c = None) (iter self) ∨ (d = ∅ ∧ _string self ≠ "") →
  ∃ c, c ∈ iter self ∧ d !! c = None ∧
       complement self reverse = Raise (KeyError c) ∧
       is_LookupError (KeyError c) = true ∧
       offending_symbol (KeyError c) = Some c ∧
       ∀ r, complement self reverse ≠ Ok r.
Proof.
  intros Hd Hmissing.
  assert (Exists (λ c, d !! c = None) (iter self)) as Hex.
  { destruct Hmissing as [?|[-> Hne]]; [done|].
    destruct (iter self) as [|c l] eqn:Hi; [by apply iter_nil in Hi|].
    left. apply lookup_empty. }
  destruct (complement_dict_missing self reverse d Hd Hex)
    as (c & Hc & Hn & Hr & Hl & Ho).
  exists c. split_and!; try done.
  intros r. rewrite Hr. discriminate.
Qed.

Lemma complement_missing_symbol_LookupError_witness :
  (∃ c, complement {| type := {| __name__ := "Unspecialized";
                                complement_map := PyDict ∅ |};
                      _string := "ACGT"; id := ""; description := "";
                      quality := None |} false = Raise (KeyError c)) ∧
  (∃ c, complement {| type := DNA; _string := "TXCATT"; id := "s";
                      description := ""; quality := None |} true
          = Raise (KeyError c)).
Proof.
  split.
  - destruct (complement_missing_symbol_LookupError
      {| type := {| __name__ := "Unspecialized";
                    complement_map := PyDict ∅ |};
         _string := "ACGT"; id := ""; description := "";
         quality := None |} false ∅ eq_refl)
      as (c & _ & _ & Hr & _).
    + right. split; [reflexivity|discriminate].
    + exists c. exact Hr.
  - destruct (complement_missing_symbol_LookupError
      {| type := DNA; _string := "TXCATT"; id := "s"; description := "";
         quality := None |} true dna_complement_map eq_refl)
      as (c & _ & _ & Hr & _).
    + left. apply Exists_cons_tl, Exists_cons_hd. vm_compute; reflexivity.
    + exists c. exact Hr.
Defined.

(** C5. [reverse_complement] is [complement] with [reverse] set, on
    every sequence, for results and for exceptions alike. *)
Theorem reverse_complement_is_complement_reverse (self : Sequence) :
  reverse_complement self = complement self true.
Proof. reflexivity. Qed.

Section IsReverseComplementProperties.
Context {Other : Type}.
Variable _munge_to_sequence : Sequence → Other → string → result Sequence.

Local Abbreviation is_rc := (is_reverse_complement Other _munge_to_sequence).

(** C6. When [other] coerces to a sequence whose length differs from
    that of [self], [is_reverse_complement] returns [False].  Nothing
    is assumed about the symbols of either sequence or about the
    complement map, so the answer is [False] also where the reverse
    complement of [self] would raise. *)
Theorem is_reverse_complement_length_mismatch
    (self : Sequence) (other : Other) (o : Sequence) :
  _munge_to_sequence self other "is_reverse_complement" = Ok o →
  len self ≠ len o →
  is_rc self other = Ok false.
Proof.
  intros Hm Hlen. unfold is_reverse_complement. rewrite Hm. simpl.
  by rewrite bool_decide_eq_true_2.
Qed.

(** C7. When [other] coerces to a sequence [o] of the length of
    [self], [is_reverse_complement] returns [True] exactly when the
    reverse complement of [self] exists and has the symbols of [o],
    [False] exactly when it exists and has other symbols, and raises
    exactly what the reverse complement raises.  The answer is the
    same for any other pair with the same class, the same symbols of
    [self] and the same symbols of [o], whatever their quality,
    identifier and description. *)
Theorem is_reverse_complement_same_length
    (self : Sequence) (other : Other) (o : Sequence) :
  _munge_to_sequence self other "is_reverse_complement" = Ok o →
  len self = len o →
  (is_rc self other = Ok true ↔
     ∃ rc, reverse_complement self = Ok rc ∧ _string rc = _string o) ∧
  (is_rc self other = Ok false ↔
     ∃ rc, reverse_complement self = Ok rc ∧ _string rc ≠ _string o) ∧
  (∀ e, is_rc self other = Raise e ↔ reverse_complement self = Raise e) ∧
  (∀ self' other' o',
     _munge_to_sequence self' other' "is_reverse_complement" = Ok o' →
     type self' = type self → _string self' = _string self →
     _string o' = _string o →
     is_rc self' other' = is_rc self other).
Proof.
  intros Hm Hlen.
  assert (is_rc self other =
          rc ← reverse_complement self;
          mret (bool_decide (_string rc = _string o))) as Heq.
  { unfold is_reverse_complement. rewrite Hm. simpl.
    by rewrite bool_decide_eq_false_2 by (intros ?; done). }
  split_and!.
  - rewrite Heq. destruct (reverse_complement self) as [rc|e]; simpl.
    + split.
      * intros [= H%bool_decide_eq_true]. eauto.
      * intros (rc' & [= <-] & H). by rewrite bool_decide_eq_true_2.
    + split; [discriminate|]. intros (? & ? & _). discriminate.
  - rewrite Heq. destruct (reverse_complement self) as [rc|e]; simpl.
    + split.
      * intros [= H%bool_decide_eq_false]. eauto.
      * intros (rc' & [= <-] & H). by rewrite bool_decide_eq_false_2.
    + split; [discriminate|]. intros (? & ? & _). discriminate.
  - intros e. rewrite Heq.
    destruct (reverse_complement self); cbn; split; intros; by simplify_eq.
  - intros self' other' o' Hm' Ht Hs Ho. rewrite Heq.
    unfold is_reverse_complement at 1. rewrite Hm'. simpl.
    assert (len self' = len o') as Hlen'.
    { unfold len in *. by rewrite Hs, Ho. }
    rewrite bool_decide_eq_false_2 by (intros ?; done).
    pose proof (complement_symbols_only self self' true Ht Hs) as Hc.
    unfold reverse_complement.
    destruct (complement self true), (complement self' true); simpl;
      try done; [|by subst].
    by rewrite Hc, Ho.
Qed.

End IsReverseComplementProperties.

Lemma is_reverse_complement_length_mismatch_witness :
  reverse_complement {| type := DNA; _string := "TXCATT"; id := "s";
                        description := ""; quality := None |}
    = Raise (KeyError "X") ∧
  is_reverse_complement string munge_string
    {| type := DNA; _string := "TXCATT"; id := "s"; description := "";
       quality := None |} "??" = Ok false.
Proof.
  split; [vm_compute; reflexivity|].
  eapply (is_reverse_complement_length_mismatch munge_string).
  - reflexivity.
  - vm_compute. lia.
Defined.

Lemma is_reverse_complement_same_length_witness :
  is_reverse_complement string munge_string
    {| type := DNA; _string := "ACGT"; id := "s"; description := "";
       quality := Some [1; 2; 3; 4]%Z |} "ACGT" = Ok true.
Proof.
  eapply (is_reverse_complement_same_length munge_string).
  - reflexivity.
  - reflexivity.
  - eexists. split; vm_compute; reflexivity.
Defined.

Lemma complement_empty_Ok (self : Sequence) (reverse : bool) :
  _string self = "" →
  complement self reverse =
    Ok (_to self "" (complement_quality_of self reverse)).
Proof.
  intros Hs. pose proof (proj1 (iter_nil self) Hs) as Hi.
  apply complement_Ok. exists []. split; [|done].
  unfold reversed. rewrite Hi. by destruct reverse.
Qed.

(** The undefined-complement failure needs a symbol to look up. *)
Lemma complement_Raise_nonempty (self : Sequence) (reverse : bool)
    (e : exception) :
  complement self reverse = Raise e → _string self ≠ "".
Proof.
  intros Hr Hs. rewrite (complement_empty_Ok _ _ Hs) in Hr. discriminate.
Qed.

(** C10. On an empty sequence of any class, whatever its complement
    map (the empty dict and a set included), [complement] looks up no
    symbol: it returns an empty sequence and raises nothing. *)
Theorem complement_empty (self : Sequence) (reverse : bool) :
  _string self = "" →
  (∃ r, complement self reverse = Ok r ∧ _string r = "" ∧ len r = 0 ∧
        type r = type self ∧ id r = id self ∧
        description r = description self) ∧
  (∀ e, complement self reverse ≠ Raise e).
Proof.
  intros Hs. pose proof (complement_empty_Ok self reverse Hs) as Hc.
  split.
  - eexists. split; [exact Hc|]. done.
  - intros e. rewrite Hc. discriminate.
Qed.

Lemma complement_empty_witness :
  ∃ r, complement {| type := {| __name__ := "Unspecialized";
                               complement_map := PyDict ∅ |};
                     _string := ""; id := "s";
                     description := ""; quality := None |} false = Ok r ∧
       _string r = "".
Proof.
  destruct (proj1 (complement_empty
    {| type := {| __name__ := "Unspecialized";
                  complement_map := PyDict ∅ |};
       _string := ""; id := "s";
       description := ""; quality := None |} false eq_refl))
    as (r & Hr & Hs & _).
  exists r. split; assumption.
Defined.

(** ** Scanning for runs *)

Section Runs.
Variable cls : list ascii.

Lemma mrun_nil (prev : bool) (i j : nat) : ¬ mrun cls prev [] i j.
Proof. intros [[(Hij & Hj & _) _] _]. simpl in Hj. lia. Qed.

Lemma mrun_shift (prev : bool) (c : ascii) (rest : list ascii) (i j : nat) :
  mrun cls prev (c :: rest) (S i) (S j) ↔
  mrun cls (bool_decide (c ∈ cls)) rest i j.
Proof.
  unfold mrun, maximal_run, is_run. simpl. split.
  - intros [[(Hij & Hj & Hrun) [Hl Hr]] _]. split_and!; try lia.
    + intros p x Hp Hx. apply (Hrun (S p) x); [lia|done].
    + intros p x <- Hx. apply (Hl (S p) x); done.
    + done.
    + intros ->. apply bool_decide_eq_false. by apply (Hl 0 c).
  - intros [[(Hij & Hj & Hrun) [Hl Hr]] H0]. split_and!; try lia.
    + intros [|p] x Hp Hx; [lia|]. apply (Hrun p x); [lia|done].
    + intros [|p] x [= <-] Hx; simpl in Hx.
      * simplify_eq. intros Hin. specialize (H0 eq_refl).
        rewrite bool_decide_eq_true_2 in H0 by done. discriminate.
      * by apply (Hl p x).
    + done.
Qed.

Lemma run_length_cons_in (c : ascii) (rest : list ascii) :
  c ∈ cls → run_length cls (c :: rest) = S (run_length cls rest).
Proof. intros H. simpl. by rewrite bool_decide_eq_true_2. Qed.

Lemma run_length_cons_out (c : ascii) (rest : list ascii) :
  c ∉ cls → run_length cls (c :: rest) = 0.
Proof. intros H. simpl. by rewrite bool_decide_eq_false_2. Qed.

(** The leading run of a text is its only maximal run from position
    0. *)
Lemma run_from_start (text : list ascii) (j : nat) :
  (is_run cls text 0 j ∧ ∀ c, text !! j = Some c → c ∉ cls) ↔
  j = run_length cls text ∧ 0 < j.
Proof.
  revert j. induction text as [|c rest IH]; intros j.
  - unfold is_run. simpl. split; [intros [(? & ? & _) _]|intros [-> ?]]; lia.
  - destruct (decide (c ∈ cls)) as [Hc|Hc].
    + rewrite run_length_cons_in by done. destruct j as [|j].
      { unfold is_run. split; [intros [(? & _) _]|intros [_ ?]]; lia. }
      destruct (decide (j = 0)) as [->|Hj0].
      * unfold is_run. simpl. split.
        -- intros [_ Hr]. split; [|lia]. f_equal.
           destruct rest as [|c' rest']; [done|].
           rewrite run_length_cons_out; [done|]. by apply Hr.
        -- intros [[= Hrl] _]. split_and!; [lia|lia| |].
           ++ intros p x Hp Hx. assert (p = 0) as -> by lia.
              by simplify_eq/=.
           ++ intros x Hx. destruct rest as [|c' rest']; [done|].
              simplify_eq/=. intros Hin.
              rewrite bool_decide_eq_true_2 in Hrl by done. lia.
      * specialize (IH j). split.
        -- intros [(_ & Hj & Hrun) Hr].
           destruct (proj1 IH) as [-> _]; [|split; [done|lia]].
           split; [|done]. split_and!; [lia|simpl in Hj; lia|].
           intros p x Hp Hx. apply (Hrun (S p) x); [lia|done].
        -- intros [[= Hrl] _].
           destruct (proj2 IH) as [(_ & Hj & Hrun) Hr]; [split; [done|lia]|].
           split; [|done]. split_and!; [lia|simpl; lia|].
           intros [|p] x Hp Hx; simplify_eq/=; [done|].
           apply (Hrun p x); [lia|done].
    + rewrite run_length_cons_out by done. split; [|lia].
      intros [(Hj & _ & Hrun) _]. exfalso. apply Hc.
      apply (Hrun 0 c); [lia|done].
Qed.

Lemma mrun_start (prev : bool) (text : list ascii) (j : nat) :
  mrun cls prev text 0 j ↔
  prev = false ∧ j = run_length cls text ∧ 0 < j.
Proof.
  unfold mrun, maximal_run. rewrite <-run_from_start. split.
  - intros [(Hrun & _ & Hr) H0]. auto.
  - intros (-> & Hrun & Hr). split_and!; try done.
Qed.

Lemma mrun_lt (prev : bool) (text : list ascii) (i j : nat) :
  mrun cls prev text i j → i < j.
Proof. by intros [[(? & _) _] _]. Qed.

(** The maximal runs of [c :: rest]: the leading run, when no symbol
    of the class comes before it, and the maximal runs of [rest], one
    position on. *)
Lemma mrun_cons (prev : bool) (c : ascii) (rest : list ascii)
    (n pos : nat) (m : slice) :
  (∃ i j, m = Slice (pos + i) (pos + j) ∧ mrun cls prev (c :: rest) i j ∧
          n ≤ j - i) ↔
  (prev = false ∧ 0 < run_length cls (c :: rest) ∧
   m = Slice pos (pos + run_length cls (c :: rest)) ∧
   n ≤ run_length cls (c :: rest)) ∨
  (∃ i j, m = Slice (S pos + i) (S pos + j) ∧
          mrun cls (bool_decide (c ∈ cls)) rest i j ∧ n ≤ j - i).
Proof.
  split.
  - intros (i & j & -> & Hrun & Hn). destruct i as [|i].
    + apply mrun_start in Hrun as (-> & -> & Hpos). left.
      rewrite Nat.add_0_r. split_and!; [done|done|done|lia].
    + pose proof (mrun_lt _ _ _ _ Hrun) as Hlt.
      destruct j as [|j]; [lia|]. apply mrun_shift in Hrun. right.
      exists i, j. split_and!; [f_equal; lia|done|lia].
  - intros [(-> & Hpos & -> & Hn)|(i & j & -> & Hrun & Hn)].
    + exists 0, (run_length cls (c :: rest)).
      split_and!; [f_equal; lia| |lia]. by apply mrun_start.
    + exists (S i), (S j).
      split_and!; [f_equal; lia| |lia]. by apply mrun_shift.
Qed.

End Runs.

Section Scan.
Variable re : regex.

Lemma finditer_from_start (text : list ascii) :
  ∀ pos skip m, m ∈ finditer_from re pos skip text → pos ≤ start m.
Proof.
  induction text as [|c rest IH]; intros pos skip m.
  - destruct skip; simpl; [|by intros ?%elem_of_nil].
    destruct (match_here re []); [|by intros ?%elem_of_nil].
    intros [->|?%elem_of_nil]%elem_of_cons; [simpl; lia|done].
  - destruct skip as [|s]; cbn [finditer_from].
    + destruct (match_here re (c :: rest)).
      * intros [->|H%IH]%elem_of_cons; simpl; lia.
      * intros H%IH. lia.
    + intros H%IH. lia.
Qed.

Lemma finditer_from_NoDup (text : list ascii) :
  ∀ pos skip, NoDup (finditer_from re pos skip text).
Proof.
  induction text as [|c rest IH]; intros pos skip.
  - destruct skip; simpl; [|constructor].
    destruct (match_here re []); [|constructor].
    apply NoDup_singleton.
  - destruct skip as [|s]; cbn [finditer_from]; [|apply IH].
    destruct (match_here re (c :: rest)); [|apply IH].
    constructor; [|apply IH].
    intros H%finditer_from_start. simpl in H. lia.
Qed.

Hypothesis at_least_positive : 0 < at_least re.

Lemma scan_inv_step (c : ascii) (rest : list ascii) (k : nat) :
  run_length (chars re) (c :: rest) = S k →
  bool_decide (c ∈ chars re) = true ∧ scan_inv re true rest k.
Proof.
  simpl. case_bool_decide; [|discriminate]. intros [= Hk].
  split; [done|]. destruct k; simpl; [lia|done].
Qed.

Lemma finditer_from_spec (text : list ascii) :
  ∀ pos skip prev, scan_inv re prev text skip →
  ∀ m, m ∈ finditer_from re pos skip text ↔
       ∃ i j, m = Slice (pos + i) (pos + j) ∧
              mrun (chars re) prev text i j ∧ at_least re ≤ j - i.
Proof.
  induction text as [|c rest IH]; intros pos skip prev Hinv m.
  - assert (finditer_from re pos skip [] = []) as ->.
    { destruct skip; [|done]. simpl. unfold match_here. simpl.
      destruct (at_least re); [lia|done]. }
    split; [by intros ?%elem_of_nil|].
    intros (i & j & _ & H & _). by apply mrun_nil in H.
  - rewrite mrun_cons. destruct skip as [|s].
    + cbn [finditer_from]. unfold match_here. cbn [scan_inv] in Hinv.
      destruct (Nat.leb_spec (at_least re) (run_length (chars re) (c :: rest)))
        as [Hk|Hk].
      * assert (prev = false) as ->.
        { destruct prev; [|done]. specialize (Hinv eq_refl). lia. }
        destruct (run_length (chars re) (c :: rest)) as [|k] eqn:Hrl; [lia|].
        destruct (scan_inv_step _ _ _ Hrl) as [-> Hinv'].
        rewrite elem_of_cons, (IH (S pos) k true Hinv').
        split; (intros [H|H]; [left|by right]).
        -- split_and!; [done|lia|done|done].
        -- by destruct H as (_ & _ & -> & _).
      * rewrite (IH (S pos) 0 (bool_decide (c ∈ chars re))).
        -- split; [by right|]. intros [(_ & _ & _ & Hn)|H]; [lia|done].
        -- simpl. intros Hc. simpl in Hk. rewrite Hc in Hk. lia.
    + cbn [finditer_from]. destruct Hinv as [-> Hrl].
      destruct (scan_inv_step _ _ _ Hrl) as [-> Hinv'].
      rewrite (IH (S pos) s true Hinv').
      split; [by right|]. intros [(Hp & _)|H]; [discriminate|done].
Qed.

(** The matches of the expression in a text are its maximal runs of
    at least [at_least] symbols of the class. *)
Lemma finditer_spec (text : list ascii) (m : slice) :
  m ∈ finditer re text ↔
  maximal_run (chars re) text (start m) (stop m) ∧
  at_least re ≤ stop m - start m.
Proof.
  unfold finditer. rewrite (finditer_from_spec text 0 0 false).
  - split.
    + intros (i & j & -> & [Hrun _] & Hn). done.
    + intros [Hrun Hn]. exists (start m), (stop m).
      split_and!; [by destruct m|by split|done].
  - simpl. discriminate.
Qed.

End Scan.

(** ** Excluded spans *)

Lemma overlaps_false (m e : slice) :
  overlaps m e = false ↔
  ∀ p, start m ≤ p < stop m → ¬ (start e ≤ p < stop e).
Proof.
  unfold overlaps. rewrite Nat.ltb_ge. split.
  - intros H p Hm He. lia.
  - intros H.
    destruct (Nat.le_gt_cases (Nat.min (stop m) (stop e))
                (Nat.max (start m) (start e))) as [Hle|Hgt]; [done|].
    exfalso. apply (H (Nat.max (start m) (start e))); lia.
Qed.

Lemma not_excluded (spans : list slice) (m : slice) :
  forallb (λ e, negb (overlaps m e)) spans ↔ outside (Some spans) m.
Proof.
  unfold outside. rewrite Is_true_true, forallb_forall. split.
  - intros H spans' e p [= <-] He%list_elem_of_In.
    apply overlaps_false. apply negb_true_iff. by apply H.
  - intros H e He%list_elem_of_In. apply negb_true_iff, overlaps_false.
    intros p. by apply (H spans e p).
Qed.

Lemma outside_None (m : slice) : outside None m.
Proof. intros ? ? ? ?. discriminate. Qed.

(** The searchable text holds, in order, the symbols of the text at the
    positions that are in none of the spans. *)
Lemma searchable_elem (spans : list slice) (text : list ascii) :
  ∀ pos p c,
    (p, c) ∈ searchable spans pos text ↔
    pos ≤ p ∧ text !! (p - pos) = Some c ∧ in_spans spans p = false.
Proof.
  induction text as [|x rest IH]; intros pos p c; simpl.
  - split; [by intros ?%elem_of_nil|]. by intros (_ & ? & _).
  - assert ((p, c) ∈ searchable spans (S pos) rest ↔
            pos ≤ p ∧ p ≠ pos ∧ (x :: rest) !! (p - pos) = Some c ∧
            in_spans spans p = false) as Hrest.
    { rewrite IH. split.
      - intros (Hp & Hc & Hin). split_and!; [lia|lia| |done].
        replace (p - pos) with (S (p - S pos)) by lia. done.
      - intros (Hp & Hne & Hc & Hin). split_and!; [lia| |done].
        replace (p - pos) with (S (p - S pos)) in Hc by lia. done. }
    destruct (in_spans spans pos) eqn:Hpos.
    + rewrite Hrest. split.
      * intros (Hp & _ & Hc & Hin). done.
      * intros (Hp & Hc & Hin). split_and!; try done. congruence.
    + rewrite elem_of_cons, Hrest. split.
      * intros [[= -> ->]|(Hp & _ & Hc & Hin)]; [|done].
        rewrite Nat.sub_diag. done.
      * intros (Hp & Hc & Hin). destruct (decide (p = pos)) as [->|Hne].
        -- left. rewrite Nat.sub_diag in Hc. by simplify_eq/=.
        -- right. done.
Qed.

Lemma searchable_positions_ge (spans : list slice) (text : list ascii) :
  ∀ pos, Forall (λ p, pos ≤ p < pos + length text)
           (searchable spans pos text).*1.
Proof.
  induction text as [|x rest IH]; intros pos; simpl; [constructor|].
  assert (Forall (λ p, pos ≤ p < pos + S (length rest))
            (searchable spans (S pos) rest).*1) as Hrest.
  { eapply Forall_impl; [apply IH|]. simpl. intros p ?. lia. }
  destruct (in_spans spans pos); [done|].
  constructor; [simpl; lia|done].
Qed.

Lemma searchable_positions_sorted (spans : list slice) (text : list ascii) :
  ∀ pos, StronglySorted lt (searchable spans pos text).*1.
Proof.
  induction text as [|x rest IH]; intros pos; simpl; [constructor|].
  destruct (in_spans spans pos); [apply IH|].
  constructor; [apply IH|]. simpl.
  eapply Forall_impl; [apply searchable_positions_ge|]. simpl. intros p ?. lia.
Qed.

Lemma searchable_length (spans : list slice) (text : list ascii) (pos : nat) :
  length (searchable spans pos text) ≤ length text.
Proof.
  revert pos. induction text as [|x rest IH]; intros pos; simpl; [done|].
  destruct (in_spans spans pos); simpl; specialize (IH (S pos)); lia.
Qed.

(** Without spans to exclude the searchable text is the text. *)
Lemma searchable_no_spans (text : list ascii) :
  ∀ pos, (searchable [] pos text).*1 = seq pos (length text) ∧
         (searchable [] pos text).*2 = text.
Proof.
  induction text as [|x rest IH]; intros pos; [done|].
  destruct (IH (S pos)) as [IH1 IH2].
  cbn [searchable in_spans existsb]. rewrite !fmap_cons. simpl.
  by rewrite IH1, IH2.
Qed.

(** ** Positions of the searchable text *)

Lemma sorted_nth_lt (K : list nat) :
  StronglySorted lt K →
  ∀ i j, i < j → j < length K → nth i K 0 < nth j K 0.
Proof.
  induction 1 as [|k K HK IH Hall]; intros i j Hij Hj; simpl in *; [lia|].
  destruct j as [|j]; [lia|]. destruct i as [|i].
  - eapply Forall_forall in Hall; [exact Hall|].
    apply list_elem_of_lookup. exists j.
    rewrite nth_lookup. by destruct (lookup_lt_is_Some_2 K j) as [? ->]; [lia|].
  - apply IH; lia.
Qed.

Lemma sorted_nth_gap (K : list nat) :
  StronglySorted lt K →
  ∀ i j, i ≤ j → j < length K → nth i K 0 + (j - i) ≤ nth j K 0.
Proof.
  intros HK i j Hij Hj. induction j as [|j IH].
  { assert (i = 0) as -> by lia. lia. }
  destruct (decide (i = S j)) as [->|Hne]; [lia|].
  pose proof (sorted_nth_lt K HK j (S j)). specialize (IH ltac:(lia) ltac:(lia)).
  lia.
Qed.

Lemma nth_bound (K : list nat) (L i : nat) :
  Forall (λ p, p < L) K → i < length K → nth i K 0 < L.
Proof.
  intros Hall Hi. eapply Forall_forall in Hall; [exact Hall|].
  apply list_elem_of_lookup. exists i.
  rewrite nth_lookup. by destruct (lookup_lt_is_Some_2 K i) as [? ->].
Qed.

(** The span of a match in the searchable text is non-empty, lies within
    the sequence and has at least the positions of the match. *)
Lemma span_of_match_bounds (K : list nat) (L : nat) (m : slice) :
  StronglySorted lt K → Forall (λ p, p < L) K →
  start m < stop m → stop m ≤ length K →
  start (span_of_match K m) < stop (span_of_match K m) ∧
  stop (span_of_match K m) ≤ L ∧
  stop m - start m ≤ stop (span_of_match K m) - start (span_of_match K m).
Proof.
  intros HK HL Hm Hlen. unfold span_of_match. simpl.
  pose proof (sorted_nth_gap K HK (start m) (stop m - 1)).
  pose proof (nth_bound K L (stop m - 1) HL). lia.
Qed.

(** Matches one after the other in the searchable text have their spans
    one after the other in the sequence. *)
Lemma span_of_match_before (K : list nat) (a b : slice) :
  StronglySorted lt K →
  start a < stop a → stop a ≤ start b → start b < length K →
  stop (span_of_match K a) ≤ start (span_of_match K b).
Proof.
  intros HK Ha Hab Hb. unfold span_of_match. simpl.
  pose proof (sorted_nth_lt K HK (stop a - 1) (start b)). lia.
Qed.

Lemma span_of_match_apart (K : list nat) (a b : slice) :
  StronglySorted lt K →
  start a < stop a → stop a < start b → start b < length K →
  stop (span_of_match K a) < start (span_of_match K b).
Proof.
  intros HK Ha Hab Hb. unfold span_of_match. simpl.
  pose proof (sorted_nth_lt K HK (stop a - 1) (stop a)).
  pose proof (sorted_nth_lt K HK (stop a) (start b)). lia.
Qed.

Lemma span_of_match_seq (L : nat) (m : slice) :
  start m < stop m → stop m ≤ L → span_of_match (seq 0 L) m = m.
Proof.
  intros Hm HL. unfold span_of_match. destruct m as [i j]. simpl in *.
  rewrite !seq_nth by lia. f_equal; lia.
Qed.

(** ** Order of the matches *)

Lemma StronglySorted_elem_impl {A : Type} (R R' : relation A) (l : list A) :
  StronglySorted R l →
  (∀ a b, a ∈ l → b ∈ l → R a b → R' a b) →
  StronglySorted R' l.
Proof.
  induction 1 as [|a l Hl IH Hall]; intros Himpl; constructor.
  - apply IH. intros x y Hx Hy. apply Himpl; by right.
  - apply Forall_forall. intros b Hb. apply Himpl; [by left|by right|].
    by eapply Forall_forall in Hall.
Qed.

Lemma StronglySorted_filter_keep {A : Type} (R : relation A)
    (P : A → Prop) `{!∀ x, Decision (P x)} (l : list A) :
  StronglySorted R l → StronglySorted R (filter P l).
Proof.
  induction 1 as [|a l Hl IH Hall]; [constructor|].
  rewrite filter_cons. case_decide; [|done]. constructor; [done|].
  apply Forall_forall. intros b [_ Hb]%list_elem_of_filter.
  by eapply Forall_forall in Hall.
Qed.

Lemma sorted_spans_NoDup (l : list slice) :
  StronglySorted (λ a b, stop a < start b) l →
  Forall (λ m, start m < stop m) l →
  NoDup l.
Proof.
  induction 1 as [|a l Hl IH Hall]; intros Hne; [constructor|].
  apply Forall_cons in Hne as [Ha Hne]. constructor; [|by apply IH].
  intros Hin. eapply Forall_forall in Hall; [|exact Hin]. simpl in Hall. lia.
Qed.

Lemma finditer_from_sorted_start (re : regex) (text : list ascii) :
  ∀ pos skip,
    StronglySorted (λ a b, start a < start b) (finditer_from re pos skip text).
Proof.
  induction text as [|c rest IH]; intros pos skip.
  - destruct skip; simpl; [|constructor].
    destruct (match_here re []); repeat constructor.
  - destruct skip as [|s]; cbn [finditer_from]; [|apply IH].
    destruct (match_here re (c :: rest)); [|apply IH].
    constructor; [apply IH|]. apply Forall_forall.
    intros m Hm%finditer_from_start. simpl. lia.
Qed.

(** Two maximal runs of a text are the same run or are apart: after the
    end of the first comes a symbol outside the class before the second
    starts. *)
Lemma maximal_run_apart (cls text : list ascii) (i j i' j' : nat) :
  maximal_run cls text i j → maximal_run cls text i' j' →
  i < i' → j < i'.
Proof.
  intros [(Hij & Hj & Hrun) _] [_ [Hleft _]] Hlt.
  destruct (Nat.le_gt_cases i' j) as [Hle|?]; [exfalso|done].
  destruct i' as [|p]; [lia|].
  destruct (lookup_lt_is_Some_2 text p) as [c Hc]; [lia|].
  apply (Hleft p c eq_refl Hc). apply (Hrun p c); [lia|done].
Qed.

Lemma maximal_run_bounds (cls text : list ascii) (i j : nat) :
  maximal_run cls text i j → i < j ∧ j ≤ length text.
Proof. by intros [(? & ? & _) _]. Qed.

(** Runs of two classes without a common symbol share no position. *)
Lemma runs_of_disjoint_classes (cls1 cls2 text : list ascii)
    (i1 j1 i2 j2 : nat) :
  (∀ c, c ∈ cls1 → c ∉ cls2) →
  maximal_run cls1 text i1 j1 → maximal_run cls2 text i2 j2 →
  j1 ≤ i2 ∨ j2 ≤ i1.
Proof.
  intros Hdisj [(H1 & Hj1 & Hrun1) _] [(H2 & _ & Hrun2) _].
  destruct (Nat.le_gt_cases j1 i2) as [?|Hlt1]; [by left|].
  destruct (Nat.le_gt_cases j2 i1) as [?|Hlt2]; [by right|]. exfalso.
  destruct (lookup_lt_is_Some_2 text (Nat.max i1 i2)) as [c Hc]; [lia|].
  apply (Hdisj c).
  - apply (Hrun1 (Nat.max i1 i2)); [lia|done].
  - apply (Hrun2 (Nat.max i1 i2)); [lia|done].
Qed.

Lemma finditer_sorted (re : regex) (text : list ascii) :
  0 < at_least re →
  StronglySorted (λ a b, stop a < start b) (finditer re text).
Proof.
  intros Hn.
  apply (StronglySorted_elem_impl (λ a b, start a < start b)).
  - apply finditer_from_sorted_start.
  - intros a b Ha Hb.
    apply finditer_spec in Ha as [Ha _]; [|done].
    apply finditer_spec in Hb as [Hb _]; [|done].
    by eapply maximal_run_apart.
Qed.

Lemma finditer_bounds (re : regex) (text : list ascii) :
  0 < at_least re →
  Forall (λ m, start m < stop m ∧ stop m ≤ length text ∧
               at_least re ≤ stop m - start m) (finditer re text).
Proof.
  intros Hn. apply Forall_forall. intros m Hm.
  apply finditer_spec in Hm as [Hrun%maximal_run_bounds Hlen]; [|done].
  by destruct Hrun.
Qed.

(** ** The scanning primitive under both policies *)

Lemma unexcluded_positions (self : Sequence)
    (exclude : option (list slice)) :
  StronglySorted lt (unexcluded exclude (iter self)).*1 ∧
  Forall (λ p, p < len self) (unexcluded exclude (iter self)).*1 ∧
  length (unexcluded exclude (iter self)).*1 =
    length (unexcluded exclude (iter self)).*2.
Proof.
  unfold unexcluded. split_and!.
  - apply searchable_positions_sorted.
  - eapply Forall_impl; [apply searchable_positions_ge|].
    simpl. intros p Hp. rewrite length_iter in Hp. lia.
  - by rewrite !length_fmap.
Qed.

Lemma slices_from_regex_spec (policy : exclusion_policy) (self : Sequence)
    (re : regex) (exclude : option (list slice)) (m : slice) :
  0 < at_least re →
  m ∈ slices_from_regex policy self re exclude ↔
  motif_occurrence policy (chars re) (iter self) exclude (at_least re) m.
Proof.
  intros Hn. unfold slices_from_regex, motif_occurrence, unexcluded.
  destruct policy, exclude as [spans|]; simpl.
  - rewrite list_elem_of_filter, finditer_spec, not_excluded by done. tauto.
  - rewrite finditer_spec by done. pose proof (outside_None m). tauto.
  - rewrite list_elem_of_fmap. split.
    + intros ([i j] & -> & Hx%finditer_spec); [|done]. simpl in Hx.
      exists i, j. by destruct Hx.
    + intros (i & j & Hrun & Hlen & ->). exists (Slice i j).
      split; [done|]. by apply finditer_spec.
  - destruct (searchable_no_spans (iter self) 0) as [-> ->].
    rewrite finditer_spec by done. split.
    + intros [Hrun Hlen]. exists (start m), (stop m).
      split_and!; [done|done|].
      apply maximal_run_bounds in Hrun as [? ?].
      rewrite span_of_match_seq by done. by destruct m.
    + intros (i & j & Hrun & Hlen & ->).
      pose proof (maximal_run_bounds _ _ _ _ Hrun) as [? ?].
      rewrite span_of_match_seq by done. done.
Qed.

Lemma slices_from_regex_sorted (policy : exclusion_policy) (self : Sequence)
    (re : regex) (exclude : option (list slice)) :
  0 < at_least re →
  StronglySorted (λ a b, stop a < start b)
    (slices_from_regex policy self re exclude).
Proof.
  intros Hn. unfold slices_from_regex.
  destruct exclude as [spans|]; [|by apply finditer_sorted].
  destruct policy.
  - by apply StronglySorted_filter_keep, finditer_sorted.
  - destruct (unexcluded_positions self (Some spans)) as (HK & _ & Hlen).
    unfold unexcluded in *. simpl in *.
    set (kept := searchable spans 0 (iter self)) in *.
    apply (StronglySorted_fmap _
             (λ a b, stop a < start b ∧ start a < stop a ∧
                     start b < stop b ∧ stop b ≤ length kept.*2)).
    + intros a b (Hab & Ha & Hb & Hlb).
      apply span_of_match_apart; [done|done|done|]. rewrite Hlen. lia.
    + apply (StronglySorted_elem_impl (λ a b, stop a < start b));
        [by apply finditer_sorted|].
      intros a b Ha Hb Hab.
      pose proof (finditer_bounds re kept.*2 Hn) as Hall.
      rewrite Forall_forall in Hall.
      destruct (Hall a Ha) as (? & ? & _), (Hall b Hb) as (? & ? & _). done.
Qed.

Lemma slices_from_regex_bounds (policy : exclusion_policy) (self : Sequence)
    (re : regex) (exclude : option (list slice)) :
  0 < at_least re →
  Forall (λ m, start m < stop m ∧ stop m ≤ len self ∧
               at_least re ≤ stop m - start m)
    (slices_from_regex policy self re exclude).
Proof.
  intros Hn.
  assert (Forall (λ m, start m < stop m ∧ stop m ≤ len self ∧
                       at_least re ≤ stop m - start m)
            (finditer re (iter self))) as Hplain.
  { rewrite <-length_iter. by apply finditer_bounds. }
  unfold slices_from_regex. destruct exclude as [spans|]; [|done].
  destruct policy.
  - apply Forall_forall. intros m [_ Hm]%list_elem_of_filter.
    by eapply Forall_forall in Hplain.
  - destruct (unexcluded_positions self (Some spans)) as (HK & HL & Hlen).
    unfold unexcluded in *. simpl in *.
    set (kept := searchable spans 0 (iter self)) in *.
    apply Forall_fmap, Forall_forall. intros x Hx. simpl.
    pose proof (finditer_bounds re kept.*2 Hn) as Hall.
    rewrite Forall_forall in Hall. destruct (Hall x Hx) as (Hne & Hstop & Hlx).
    destruct (span_of_match_bounds kept.*1 (len self) x HK HL Hne)
      as (? & ? & ?); [by rewrite Hlen|].
    unfold span_of_match in *. simpl in *. lia.
Qed.

Lemma slices_from_regex_NoDup (policy : exclusion_policy) (self : Sequence)
    (re : regex) (exclude : option (list slice)) :
  0 < at_least re →
  NoDup (slices_from_regex policy self re exclude).
Proof.
  intros Hn. apply sorted_spans_NoDup; [by apply slices_from_regex_sorted|].
  eapply Forall_impl; [by apply slices_from_regex_bounds|]. by intros m (? & _).
Qed.


(** Without excluded spans the occurrences are the maximal runs of the
    text, under either policy. *)
Lemma motif_occurrence_None (policy : exclusion_policy)
    (cls text : list ascii) (n : nat) (m : slice) :
  motif_occurrence policy cls text None n m ↔
  maximal_run cls text (start m) (stop m) ∧ n ≤ stop m - start m.
Proof.
  unfold motif_occurrence, unexcluded. destruct policy; simpl.
  - pose proof (outside_None m). tauto.
  - destruct (searchable_no_spans text 0) as [-> ->]. split.
    + intros (i & j & Hrun & Hn & ->).
      pose proof (maximal_run_bounds _ _ _ _ Hrun) as [? ?].
      rewrite span_of_match_seq by done. done.
    + intros [Hrun Hn]. exists (start m), (stop m). split_and!; [done|done|].
      apply maximal_run_bounds in Hrun as [? ?].
      rewrite span_of_match_seq by done. by destruct m.
Qed.

(** Occurrences of two classes without a common symbol, under the same
    exclusions, share no position. *)
Lemma motif_occurrence_disjoint (policy : exclusion_policy)
    (cls1 cls2 text : list ascii) (exclude : option (list slice))
    (n1 n2 : nat) (m1 m2 : slice) (p : nat) :
  (∀ c, c ∈ cls1 → c ∉ cls2) →
  motif_occurrence policy cls1 text exclude n1 m1 →
  motif_occurrence policy cls2 text exclude n2 m2 →
  start m1 ≤ p < stop m1 → ¬ (start m2 ≤ p < stop m2).
Proof.
  intros Hdisj H1 H2 Hp1 Hp2. destruct policy; simpl in H1, H2.
  - destruct H1 as (Hr1 & _), H2 as (Hr2 & _).
    destruct (runs_of_disjoint_classes _ _ _ _ _ _ _ Hdisj Hr1 Hr2); lia.
  - destruct H1 as (i1 & j1 & Hr1 & _ & ->), H2 as (i2 & j2 & Hr2 & _ & ->).
    pose proof (searchable_positions_sorted (default [] exclude) text 0) as HK.
    fold (unexcluded exclude text) in HK.
    pose proof (maximal_run_bounds _ _ _ _ Hr1) as [? Hl1].
    pose proof (maximal_run_bounds _ _ _ _ Hr2) as [? Hl2].
    rewrite length_fmap in Hl1, Hl2.
    destruct (runs_of_disjoint_classes _ _ _ _ _ _ _ Hdisj Hr1 Hr2) as [?|?].
    + assert (stop (span_of_match (unexcluded exclude text).*1 (Slice i1 j1))
              ≤ start (span_of_match (unexcluded exclude text).*1
                         (Slice i2 j2))) as Hb.
      { apply span_of_match_before; simpl; rewrite ?length_fmap;
          [done|lia|lia|lia]. }
      lia.
    + assert (stop (span_of_match (unexcluded exclude text).*1 (Slice i2 j2))
              ≤ start (span_of_match (unexcluded exclude text).*1
                         (Slice i1 j1))) as Hb.
      { apply span_of_match_before; simpl; rewrite ?length_fmap;
          [done|lia|lia|lia]. }
      lia.
Qed.

(** ** The registry *)

Lemma registry_lookup_None (name : string) (registry : MiniRegistry) :
  registry_lookup name registry = None ↔ name ∉ registry.*1.
Proof.
  induction registry as [|[name' f] registry IH]; simpl.
  - split; [intros _; apply not_elem_of_nil|done].
  - rewrite not_elem_of_cons, <-IH. case_bool_decide as Hname.
    + split; [discriminate|]. intros [Hne _]. by destruct Hne.
    + split; [|by intros [_ ?]]. intros ?. split; [|done].
      intros ->. by destruct Hname.
Qed.

(** C8, as the specification states it, fails at two inputs.  Its
    example expects a single span of five symbols, but the A/G run of
    AGGGGGT has six.  And with a minimum length of 0 the pattern matches
    the empty string: on AAT the detector also yields the empty span
    at position 2, which is no maximal run. *)
Lemma purine_run_counterexample :
  (¬ ∃ m, _motif_purine_run FilterMatches
            {| type := DNA; _string := "AGGGGGT"; id := "";
               description := ""; quality := None |} 4 None = [m] ∧
          stop m - start m = 5) ∧
  (¬ ∃ m, _motif_purine_run DeleteBeforeMatching
            {| type := DNA; _string := "AGGGGGT"; id := "";
               description := ""; quality := None |} 4 None = [m] ∧
          stop m - start m = 5) ∧
  Slice 2 2 ∈ _motif_purine_run FilterMatches
                {| type := DNA; _string := "AAT"; id := "";
                   description := ""; quality := None |} 0 None ∧
  Slice 2 2 ∈ _motif_purine_run DeleteBeforeMatching
                {| type := DNA; _string := "AAT"; id := "";
                   description := ""; quality := None |} 0 None ∧
  ¬ maximal_run ["A"; "G"; "R"]%char (list_ascii_of_string "AAT") 2 2.
Proof.
  split_and!.
  - intros (m & Hm & Hlen). vm_compute in Hm.
    injection Hm as <-. simpl in Hlen. discriminate.
  - intros (m & Hm & Hlen). vm_compute in Hm.
    injection Hm as <-. simpl in Hlen. discriminate.
  - vm_compute. right. left.
  - vm_compute. right. left.
  - intros [(Hlt & _) _]. lia.
Qed.

(** C8. For a minimum length of at least one and under either policy
    for excluded spans, the spans of the purine-run detector are, each
    once, the maximal runs of at least [min_length] symbols of A, G, R
    outside the excluded spans, as the policy reads them; without
    excluded spans they are the maximal runs of the sequence.  The same
    holds of the pyrimidine-run detector for C, T, U, Y.  On AGGGGGT
    with minimum length 4 the registered purine-run detector yields the
    one span [[0, 6)], the six symbols AGGGGG, and the pyrimidine-run
    detector yields no span. *)
Theorem motif_runs (policy : exclusion_policy) (sequence : Sequence)
    (min_length : nat) (exclude : option (list slice)) :
  0 < min_length →
  (∀ m, m ∈ _motif_purine_run policy sequence min_length exclude ↔
        motif_occurrence policy ["A"; "G"; "R"]%char (iter sequence)
          exclude min_length m) ∧
  (∀ m, m ∈ _motif_purine_run policy sequence min_length None ↔
        maximal_run ["A"; "G"; "R"]%char (iter sequence) (start m) (stop m) ∧
        min_length ≤ stop m - start m) ∧
  NoDup (_motif_purine_run policy sequence min_length exclude) ∧
  (∀ m, m ∈ _motif_pyrimidine_run policy sequence min_length exclude ↔
        motif_occurrence policy ["C"; "T"; "U"; "Y"]%char (iter sequence)
          exclude min_length m) ∧
  (∀ m, m ∈ _motif_pyrimidine_run policy sequence min_length None ↔
        maximal_run ["C"; "T"; "U"; "Y"]%char (iter sequence)
          (start m) (stop m) ∧
        min_length ≤ stop m - start m) ∧
  NoDup (_motif_pyrimidine_run policy sequence min_length exclude) ∧
  (∀ cls i d q,
     let s := {| type := cls; _string := "AGGGGGT"; id := i;
                 description := d; quality := q |} in
     find_motifs (_motifs policy) s (Some "purine-run") 4 None
       = Ok [Slice 0 6] ∧
     find_motifs (_motifs policy) s (Some "pyrimidine-run") 4 None = Ok []).
Proof.
  intros Hn. split_and!.
  - intros m.
    by apply (slices_from_regex_spec _ _ (class_run "AGR" min_length)).
  - intros m. rewrite <-motif_occurrence_None.
    by apply (slices_from_regex_spec _ _ (class_run "AGR" min_length)).
  - by apply (slices_from_regex_NoDup _ _ (class_run "AGR" min_length)).
  - intros m.
    by apply (slices_from_regex_spec _ _ (class_run "CTUY" min_length)).
  - intros m. rewrite <-motif_occurrence_None.
    by apply (slices_from_regex_spec _ _ (class_run "CTUY" min_length)).
  - by apply (slices_from_regex_NoDup _ _ (class_run "CTUY" min_length)).
  - intros cls i d q. destruct policy; split; vm_compute; reflexivity.
Qed.

Lemma motif_runs_witness :
  (maximal_run ["A"; "G"; "R"]%char (list_ascii_of_string "AGGGGGT") 0 6 ∧
   4 ≤ 6 - 0) ∧
  motif_occurrence DeleteBeforeMatching ["A"; "G"; "R"]%char
    (list_ascii_of_string "GGTGG") (Some [Slice 2 3]) 2 (Slice 0 5).
Proof.
  split.
  - pose (s := {| type := DNA; _string := "AGGGGGT"; id := "";
                  description := ""; quality := None |}).
    destruct (motif_runs FilterMatches s 4 None (Nat.lt_0_succ 3))
      as (_ & Hpurine & _).
    apply (proj1 (Hpurine (Slice 0 6))).
    assert (_motif_purine_run FilterMatches s 4 None = [Slice 0 6]) as ->
      by (vm_compute; reflexivity).
    constructor.
  - pose (s := {| type := DNA; _string := "GGTGG"; id := "";
                  description := ""; quality := None |}).
    destruct (motif_runs DeleteBeforeMatching s 2 (Some [Slice 2 3])
                (Nat.lt_0_succ 1)) as (Hpurine & _).
    apply (proj1 (Hpurine (Slice 0 5))).
    assert (_motif_purine_run DeleteBeforeMatching s 2 (Some [Slice 2 3])
            = [Slice 0 5]) as -> by (vm_compute; reflexivity).
    constructor.
Defined.

(** C9. For any registry, sequence, minimum length and exclusion, a
    name that is not registered makes [find_motifs] raise
    [UnknownMotif], an error of the [LookupError] class, instead of
    returning spans. *)
Theorem find_motifs_unknown (motifs : MiniRegistry) (self : Sequence)
    (name : string) (min_length : nat) (exclude : option (list slice)) :
  name ∉ motifs.*1 →
  find_motifs motifs self (Some name) min_length exclude
    = Raise (UnknownMotif name) ∧
  is_LookupError (UnknownMotif name) = true ∧
  (∀ spans, find_motifs motifs self (Some name) min_length exclude
            ≠ Ok spans).
Proof.
  intros H%registry_lookup_None. unfold find_motifs. rewrite H.
  split_and!; done.
Qed.

Lemma find_motifs_unknown_witness :
  find_motifs (_motifs FilterMatches)
    {| type := DNA; _string := "AGGGGGT"; id := ""; description := "";
       quality := None |} (Some "nonexistent-motif") 4 None
  = Raise (UnknownMotif "nonexistent-motif").
Proof.
  apply find_motifs_unknown. vm_compute.
  intros H. repeat (apply elem_of_cons in H as [H|H]; [discriminate|]).
  by apply elem_of_nil in H.
Defined.

(** * Further properties of the module *)

(** ** Complement *)

Lemma comprehension_reverse {A B : Type} (f : A → result B)
    (l : list A) (l' : list B) :
  comprehension f l = Ok l' →
  comprehension f (reverse l) = Ok (reverse l').
Proof.
  intros H%comprehension_Ok. by apply comprehension_Ok, Forall2_reverse.
Qed.

Lemma elem_of_seq_iterator (self : Sequence) (reverse : bool) (c : ascii) :
  c ∈ (if reverse then reversed self else iter self) ↔ c ∈ iter self.
Proof. destruct reverse; [apply elem_of_reverse|done]. Qed.

(** X1. A complement has the length of the sequence, and the symbol of
    the sequence at position [i] has an entry in the complement map
    whose value stands at position [i] of the forward complement and at
    position [len - 1 - i] of the reverse complement. *)
Theorem complement_positions (self r : Sequence) (reverse : bool) :
  complement self reverse = Ok r →
  len r = len self ∧
  ∀ i c, iter self !! i = Some c →
         ∃ c', entry (complement_map (type self)) c = Some c' ∧
               iter r !! (if reverse then len self - 1 - i else i) = Some c'.
Proof.
  intros Hc. split; [by eapply complement_len|].
  apply complement_Ok in Hc as (symbols & Hs & ->).
  intros i c Hi. rewrite iter_join. apply comprehension_Ok in Hs.
  pose proof (lookup_lt_Some _ _ _ Hi) as Hlt. rewrite length_iter in Hlt.
  destruct reverse.
  - assert (reversed self !! (len self - 1 - i) = Some c) as Hr.
    { unfold reversed. rewrite reverse_lookup by (rewrite length_iter; lia).
      rewrite length_iter, <-Hi. f_equal. lia. }
    destruct (Forall2_lookup_l _ _ _ _ _ Hs Hr) as (c' & Hc' & Hg).
    exists c'. split; [by apply getitem_Ok|done].
  - destruct (Forall2_lookup_l _ _ _ _ _ Hs Hi) as (c' & Hc' & Hg).
    exists c'. split; [by apply getitem_Ok|done].
Qed.

Lemma complement_positions_witness :
  ∃ r, len r = 6 ∧ iter r !! 3 = Some "G"%char.
Proof.
  pose (s := {| type := DNA; _string := "TTCATT"; id := "s";
                description := ""; quality := None |}).
  pose (r := {| type := DNA; _string := "AATGAA"; id := "s";
                description := ""; quality := None |}).
  assert (complement s true = Ok r) as Hc by (vm_compute; reflexivity).
  destruct (complement_positions s r true Hc) as [Hlen Hpos].
  exists r. split; [exact Hlen|].
  destruct (Hpos 2 "C"%char eq_refl) as (c' & Hc' & Hr).
  vm_compute in Hc'. injection Hc' as <-. exact Hr.
Defined.

(** X2. In either direction, [complement] returns a sequence exactly
    when every symbol of the sequence has an entry in the complement
    map; so the forward complement exists exactly when the reverse
    complement does. *)
Theorem complement_succeeds_iff (self : Sequence) (reverse : bool) :
  (∃ r, complement self reverse = Ok r) ↔
  Forall (λ c, is_Some (entry (complement_map (type self)) c)) (iter self).
Proof.
  split; [|apply complement_total].
  intros [r (symbols & Hs & _)%complement_Ok].
  apply comprehension_Ok in Hs. apply Forall_forall. intros c Hc.
  apply (elem_of_seq_iterator self reverse) in Hc.
  apply list_elem_of_lookup in Hc as [i Hi].
  destruct (Forall2_lookup_l _ _ _ _ _ Hs Hi) as (c' & _ & Hg).
  exists c'. by apply getitem_Ok.
Qed.

(** X3. With a dict for complement map, the only exception of
    [complement] is the [KeyError] of a symbol of the sequence that the
    dict does not hold. *)
Theorem complement_dict_raises_KeyError (self : Sequence) (reverse : bool)
    (d : gmap ascii ascii) (e : exception) :
  complement_map (type self) = PyDict d →
  complement self reverse = Raise e →
  ∃ c, e = KeyError c ∧ c ∈ iter self ∧ d !! c = None.
Proof.
  intros Hd Hr%complement_Raise. rewrite Hd in Hr.
  apply comprehension_Raise in Hr as (l1 & c & l2 & Hl & _ & Hg).
  apply getitem_dict_Raise in Hg as [Hn ->].
  exists c. split_and!; [done| |done].
  apply (elem_of_seq_iterator self reverse). rewrite Hl.
  apply elem_of_app. right. by left.
Qed.

Lemma complement_dict_raises_KeyError_witness :
  ∃ c, KeyError "X" = KeyError c ∧
       c ∈ list_ascii_of_string "TXCAYT" ∧ dna_complement_map !! c = None.
Proof.
  apply (complement_dict_raises_KeyError
    {| type := DNA; _string := "TXCAYT"; id := "s"; description := "";
       quality := None |} false dna_complement_map (KeyError "X") eq_refl).
  vm_compute; reflexivity.
Defined.

(** X4. With a dict for complement map, the [KeyError] names the first
    symbol without an entry in iteration order: the first such symbol of
    the sequence for the forward complement, the last for the reverse
    complement. *)
Theorem complement_reports_first_missing (self : Sequence)
    (d : gmap ascii ascii) (l1 l2 : list ascii) (c : ascii) :
  complement_map (type self) = PyDict d →
  iter self = l1 ++ c :: l2 →
  d !! c = None →
  (Forall (λ x, is_Some (d !! x)) l1 →
   complement self false = Raise (KeyError c)) ∧
  (Forall (λ x, is_Some (d !! x)) l2 →
   complement self true = Raise (KeyError c)).
Proof.
  intros Hd Hl Hc.
  assert (∀ l, Forall (λ x, is_Some (d !! x)) l →
               Forall (λ x, ∃ y, getitem (PyDict d) x = Ok y) l) as Hok.
  { intros l Hl'. eapply Forall_impl; [exact Hl'|].
    intros x [y Hy]. exists y. by apply getitem_Ok. }
  assert (getitem (PyDict d) c = Raise (KeyError c)) as Hg.
  { by apply getitem_dict_Raise. }
  split; intros Hall; apply complement_Raise; rewrite Hd;
    apply comprehension_Raise.
  - exists l1, c, l2. split_and!; [done|by apply Hok|done].
  - exists (reverse l2), c, (reverse l1). split_and!; [|apply Hok|done].
    + unfold reversed. rewrite Hl, reverse_app, reverse_cons, <-app_assoc. done.
    + by apply Forall_reverse.
Qed.

Lemma complement_reports_first_missing_witness :
  complement {| type := DNA; _string := "TXCAYT"; id := "s";
                description := ""; quality := None |} false
    = Raise (KeyError "X") ∧
  complement {| type := DNA; _string := "TXCAYT"; id := "s";
                description := ""; quality := None |} true
    = Raise (KeyError "Y").
Proof.
  split.
  - apply (proj1 (complement_reports_first_missing
      {| type := DNA; _string := "TXCAYT"; id := "s"; description := "";
         quality := None |} dna_complement_map
      ["T"%char] ["C"%char; "A"%char; "Y"%char; "T"%char] "X"%char
      eq_refl eq_refl eq_refl)).
    repeat constructor; by eexists.
  - apply (proj2 (complement_reports_first_missing
      {| type := DNA; _string := "TXCAYT"; id := "s"; description := "";
         quality := None |} dna_complement_map
      ["T"%char; "X"%char; "C"%char; "A"%char] ["T"%char] "Y"%char
      eq_refl eq_refl eq_refl)).
    repeat constructor; by eexists.
Defined.

(** X5. When the complement map of the class is a set, as for the
    unspecialized class, [complement] of any non-empty sequence raises
    [TypeError], in either direction: it returns no sequence and raises
    no [KeyError]. *)
Theorem complement_set_map_TypeError (self : Sequence) (reverse : bool)
    (s : gset ascii) :
  complement_map (type self) = PySet s →
  _string self ≠ "" →
  complement self reverse =
    Raise (TypeError "'set' object is not subscriptable").
Proof.
  intros Hs Hne. apply complement_Raise. rewrite Hs.
  assert (iter self ≠ []) as Hi by (by rewrite <-iter_nil).
  assert ((if reverse then reversed self else iter self) ≠ []) as Hit.
  { destruct reverse; [|done]. unfold reversed. intros Hr.
    apply Hi. apply (f_equal length) in Hr.
    rewrite length_reverse in Hr. by apply nil_length_inv. }
  destruct (if reverse then reversed self else iter self); done.
Qed.

Lemma complement_set_map_TypeError_witness :
  complement {| type := {| __name__ := "SetMapped";
                          complement_map := PySet ∅ |};
                _string := "ACGT"; id := "";
                description := ""; quality := None |} true
    = Raise (TypeError "'set' object is not subscriptable").
Proof.
  apply (complement_set_map_TypeError
    {| type := {| __name__ := "SetMapped"; complement_map := PySet ∅ |};
       _string := "ACGT"; id := "";
       description := ""; quality := None |} true ∅ eq_refl).
  discriminate.
Defined.

(** X6. When the forward complement exists, the reverse complement
    exists too and is its reversal: the symbols and the quality scores
    are those of the forward complement in reverse order, with the same
    class, identifier and description. *)
Theorem reverse_complement_reverses_complement (self r : Sequence) :
  complement self false = Ok r →
  ∃ rc, reverse_complement self = Ok rc ∧
        iter rc = reverse (iter r) ∧
        quality rc = reverse <$> quality r ∧
        type rc = type r ∧ id rc = id r ∧ description rc = description r.
Proof.
  intros (symbols & Hs & ->)%complement_Ok.
  exists (_to self (join (reverse symbols)) (complement_quality_of self true)).
  split_and!; try done.
  - apply complement_Ok. exists (reverse symbols). split; [|done].
    by apply comprehension_reverse.
  - by rewrite !iter_join.
  - unfold complement_quality_of, _has_quality, quality_reversed. simpl.
    rewrite andb_false_r. by destruct (quality self).
Qed.

Lemma reverse_complement_reverses_complement_witness :
  ∃ rc, reverse_complement
          {| type := DNA; _string := "TTCATT"; id := "s"; description := "";
             quality := Some [0; 1; 2; 3; 4; 5]%Z |} = Ok rc ∧
        iter rc = reverse (list_ascii_of_string "AAGTAA").
Proof.
  destruct (reverse_complement_reverses_complement
    {| type := DNA; _string := "TTCATT"; id := "s"; description := "";
       quality := Some [0; 1; 2; 3; 4; 5]%Z |}
    {| type := DNA; _string := "AAGTAA"; id := "s"; description := "";
       quality := Some [0; 1; 2; 3; 4; 5]%Z |})
    as (rc & Hrc & Hiter & _).
  - vm_compute; reflexivity.
  - exists rc. split; [exact Hrc|exact Hiter].
Defined.

(** X7. When every symbol of a sequence has an entry in the complement
    map and the map sends that entry back to the symbol, the forward
    complement of the forward complement is the sequence itself. *)
Theorem complement_involution (self : Sequence) :
  (∀ c, c ∈ iter self →
        ∃ c', entry (complement_map (type self)) c = Some c' ∧
              entry (complement_map (type self)) c' = Some c) →
  ∃ r, complement self false = Ok r ∧ complement r false = Ok self.
Proof.
  intros Hinv.
  destruct (comprehension_involution (complement_map (type self))
              (iter self) Hinv) as (l' & Hl' & Hback).
  apply comprehension_reverse in Hback.
  rewrite !reverse_involutive in Hback.
  exists (_to self (join l') (complement_quality_of self false)). split.
  - apply complement_Ok. eauto.
  - apply complement_Ok. exists (iter self). split.
    + by rewrite iter_join.
    + rewrite join_iter. destruct self as [t s i d q].
      unfold _to, complement_quality_of. simpl. by rewrite !andb_false_r.
Qed.

Lemma complement_involution_witness :
  ∃ r, complement {| type := DNA; _string := "ACGT"; id := "s";
                     description := ""; quality := None |} false = Ok r ∧
       complement r false =
         Ok {| type := DNA; _string := "ACGT"; id := "s";
               description := ""; quality := None |}.
Proof.
  apply (complement_involution
    {| type := DNA; _string := "ACGT"; id := "s"; description := "";
       quality := None |}).
  intros c Hc. vm_compute in Hc.
  repeat (apply elem_of_cons in Hc as [->|Hc];
          [eexists; split; vm_compute; reflexivity|]).
  by apply elem_of_nil in Hc.
Defined.

(** X8. A complement keeps the class, the identifier and the
    description of the sequence.  It has quality scores exactly when the
    sequence has, they are the scores of the sequence up to order, and
    when the sequence has one score per symbol so has the complement. *)
Theorem complement_keeps_identity_and_quality (self r : Sequence)
    (reverse : bool) :
  complement self reverse = Ok r →
  type r = type self ∧ id r = id self ∧
  description r = description self ∧
  (quality self = None → quality r = None) ∧
  (∀ q, quality self = Some q →
        ∃ q', quality r = Some q' ∧ q' ≡ₚ q ∧
              (length q = len self → length q' = len r)).
Proof.
  intros Hc. pose proof (complement_len _ _ _ Hc) as Hlen.
  apply complement_Ok in Hc as (symbols & _ & ->).
  unfold len in Hlen. simpl in Hlen.
  unfold complement_quality_of, _has_quality, quality_reversed, len. simpl.
  split_and!; try done.
  - by intros ->.
  - intros q ->. simpl. destruct reverse.
    + exists (reverse q). split_and!; [done|apply reverse_Permutation|].
      rewrite length_reverse. congruence.
    + exists q. split_and!; [done|done|congruence].
Qed.

Lemma complement_keeps_identity_and_quality_witness :
  ∃ q', quality {| type := DNA; _string := "AATGAA"; id := "s";
                   description := "";
                   quality := Some [5; 4; 3; 2; 1; 0]%Z |} = Some q' ∧
        q' ≡ₚ [0; 1; 2; 3; 4; 5]%Z.
Proof.
  destruct (complement_keeps_identity_and_quality
    {| type := DNA; _string := "TTCATT"; id := "s"; description := "";
       quality := Some [0; 1; 2; 3; 4; 5]%Z |}
    {| type := DNA; _string := "AATGAA"; id := "s"; description := "";
       quality := Some [5; 4; 3; 2; 1; 0]%Z |} true)
    as (_ & _ & _ & _ & Hq).
  - vm_compute; reflexivity.
  - destruct (Hq _ eq_refl) as (q' & Hq' & Hperm & _).
    exists q'. split; [exact Hq'|exact Hperm].
Defined.

(** ** The reverse-complement test *)

Section IsReverseComplementFurther.
Context {Other : Type}.
Variable _munge_to_sequence : Sequence → Other → string → result Sequence.

Local Abbreviation is_rc := (is_reverse_complement Other _munge_to_sequence).

(** X9. [is_reverse_complement] raises in two cases only: the coercion
    of [other] raises, or the coerced sequence has the length of [self]
    and the reverse complement of [self] raises; it raises that same
    exception.  A symbol without complement goes unnoticed when the
    lengths differ. *)
Theorem is_reverse_complement_raises (self : Sequence) (other : Other)
    (e : exception) :
  is_rc self other = Raise e ↔
  _munge_to_sequence self other "is_reverse_complement" = Raise e ∨
  ∃ o, _munge_to_sequence self other "is_reverse_complement" = Ok o ∧
       len self = len o ∧ reverse_complement self = Raise e.
Proof.
  unfold is_reverse_complement.
  destruct (_munge_to_sequence self other _) as [o|e']; simpl.
  - case_bool_decide as Hlen.
    + split; [discriminate|]. intros [?|(o' & [= <-] & Hl & _)]; done.
    + destruct (reverse_complement self) as [rc|e']; simpl.
      * split; [discriminate|]. intros [?|(o' & _ & _ & ?)]; done.
      * split.
        -- intros [= ->]. right. exists o. split_and!; [done| |done].
           by destruct (decide (len self = len o)).
        -- intros [[= ->]|(o' & _ & _ & [= ->])]; done.
  - split.
    + intros [= ->]. by left.
    + intros [[= ->]|(o' & ? & _)]; done.
Qed.

(** The answer [True], whatever the lengths. *)
Lemma is_reverse_complement_True (self : Sequence) (other : Other)
    (o : Sequence) :
  _munge_to_sequence self other "is_reverse_complement" = Ok o →
  is_rc self other = Ok true ↔
  ∃ rc, reverse_complement self = Ok rc ∧ _string rc = _string o.
Proof.
  intros Hm. unfold is_reverse_complement. rewrite Hm. simpl.
  case_bool_decide as Hlen.
  - split; [discriminate|]. intros (rc & Hrc & Hs). exfalso. apply Hlen.
    apply complement_len in Hrc. unfold len in *. by rewrite <-Hrc, Hs.
  - destruct (reverse_complement self) as [rc|e]; simpl.
    + split.
      * intros [= H%bool_decide_eq_true]. eauto.
      * intros (rc' & [= <-] & H). by rewrite bool_decide_eq_true_2.
    + split; [discriminate|]. intros (? & ? & _). discriminate.
Qed.

(** X10. The length test never changes the answer: whatever the
    lengths, [is_reverse_complement] returns [True] exactly when the
    reverse complement of [self] exists and has the symbols of the
    coerced [other], and it returns [False] only when the reverse
    complement, if there is one, has other symbols. *)
Theorem is_reverse_complement_True_iff (self : Sequence) (other : Other)
    (o : Sequence) :
  _munge_to_sequence self other "is_reverse_complement" = Ok o →
  (is_rc self other = Ok true ↔
   ∃ rc, reverse_complement self = Ok rc ∧ _string rc = _string o) ∧
  (is_rc self other = Ok false →
   ∀ rc, reverse_complement self = Ok rc → _string rc ≠ _string o).
Proof.
  intros Hm. split; [by apply is_reverse_complement_True|].
  intros Hfalse rc Hrc Hs.
  assert (is_rc self other = Ok true) as Htrue.
  { apply (is_reverse_complement_True _ _ _ Hm). eauto. }
  rewrite Hfalse in Htrue. discriminate.
Qed.

(** X11. The test is symmetric where the complement map is an
    involution: when [self] has an entry for each of its symbols that
    the map sends back to the symbol, and [other] coerces to a sequence
    [o] of the same class, then [True] for [self] against [other]
    gives [True] for [o] against anything that coerces to the symbols of
    [self]. *)
Theorem is_reverse_complement_symmetric (self o self' : Sequence)
    (other other' : Other) :
  _munge_to_sequence self other "is_reverse_complement" = Ok o →
  _munge_to_sequence o other' "is_reverse_complement" = Ok self' →
  type o = type self →
  _string self' = _string self →
  (∀ c, c ∈ iter self →
        ∃ c', entry (complement_map (type self)) c = Some c' ∧
              entry (complement_map (type self)) c' = Some c) →
  is_rc self other = Ok true →
  is_rc o other' = Ok true.
Proof.
  intros Hm Hm' Ht Hs' Hinv Htrue.
  apply (is_reverse_complement_True _ _ _ Hm) in Htrue
    as (rc & Hrc & Hs).
  apply (is_reverse_complement_True _ _ _ Hm').
  destruct (comprehension_involution (complement_map (type self))
              (reversed self)) as (l' & Hl' & Hback).
  { intros c Hc. apply Hinv. by apply elem_of_reverse. }
  unfold reversed in Hback. rewrite reverse_involutive in Hback.
  apply complement_Ok in Hrc as (symbols & Hsym & ->).
  rewrite Hl' in Hsym. injection Hsym as <-. simpl in Hs.
  assert (iter o = l') as Ho.
  { unfold iter. rewrite <-Hs. apply list_ascii_of_string_of_list_ascii. }
  exists (_to o (join (iter self)) (complement_quality_of o true)).
  split.
  - apply complement_Ok. exists (iter self). split; [|done].
    unfold reversed. by rewrite Ht, Ho.
  - simpl. by rewrite join_iter.
Qed.

End IsReverseComplementFurther.

Lemma is_reverse_complement_True_iff_witness :
  is_reverse_complement string munge_string
    {| type := DNA; _string := "TTCATT"; id := "s"; description := "";
       quality := None |} "AATGAA" = Ok true.
Proof.
  apply (proj1 (is_reverse_complement_True_iff munge_string
    {| type := DNA; _string := "TTCATT"; id := "s"; description := "";
       quality := None |} "AATGAA" _ eq_refl)).
  eexists. split; vm_compute; reflexivity.
Defined.

Lemma is_reverse_complement_symmetric_witness :
  is_reverse_complement string munge_string
    {| type := DNA; _string := "AATGAA"; id := ""; description := "";
       quality := None |} "TTCATT" = Ok true.
Proof.
  apply (is_reverse_complement_symmetric munge_string
    {| type := DNA; _string := "TTCATT"; id := "s"; description := "";
       quality := None |} _ _ "AATGAA" "TTCATT" eq_refl eq_refl eq_refl eq_refl).
  - intros c Hc. vm_compute in Hc.
    repeat (apply elem_of_cons in Hc as [->|Hc];
            [eexists; split; vm_compute; reflexivity|]).
    by apply elem_of_nil in Hc.
  - vm_compute; reflexivity.
Defined.

(** ** The motif detectors *)

(** X12. For a minimum length of at least one, the spans of each
    detector come in increasing order and apart from each other: a span
    ends before the next one starts, with a symbol in between.  Every
    span is non-empty, lies within the sequence and has at least
    [min_length] positions.  This holds under either policy for
    excluded spans. *)
Theorem motif_spans_ordered (policy : exclusion_policy)
    (sequence : Sequence) (min_length : nat)
    (exclude : option (list slice)) :
  0 < min_length →
  StronglySorted (λ a b, stop a < start b)
    (_motif_purine_run policy sequence min_length exclude) ∧
  StronglySorted (λ a b, stop a < start b)
    (_motif_pyrimidine_run policy sequence min_length exclude) ∧
  Forall (λ m, start m < stop m ∧ stop m ≤ len sequence ∧
               min_length ≤ stop m - start m)
    (_motif_purine_run policy sequence min_length exclude ++
     _motif_pyrimidine_run policy sequence min_length exclude).
Proof.
  intros Hn. split_and!.
  - by apply (slices_from_regex_sorted _ _ (class_run "AGR" min_length)).
  - by apply (slices_from_regex_sorted _ _ (class_run "CTUY" min_length)).
  - apply Forall_app. split.
    + by apply (slices_from_regex_bounds _ _ (class_run "AGR" min_length)).
    + by apply (slices_from_regex_bounds _ _ (class_run "CTUY" min_length)).
Qed.

Lemma motif_spans_ordered_witness :
  StronglySorted (λ a b, stop a < start b) [Slice 0 6; Slice 11 20].
Proof.
  pose (s := {| type := DNA; _string := "AGGGGGTAAATGGGGAAAAAC"; id := "";
                description := ""; quality := None |}).
  assert (_motif_purine_run FilterMatches s 4 None
          = [Slice 0 6; Slice 11 20]) as <- by (vm_compute; reflexivity).
  exact (proj1 (motif_spans_ordered FilterMatches s 4 None
                  (Nat.lt_0_succ 3))).
Defined.

(** X13. Under either policy for excluded spans, a purine run and a
    pyrimidine run of the same sequence found with the same exclusions
    share no position, whatever the minimum lengths (at least one) of
    the two scans. *)
Theorem purine_pyrimidine_disjoint (policy : exclusion_policy)
    (sequence : Sequence) (n1 n2 : nat) (exclude : option (list slice))
    (m1 m2 : slice) (p : nat) :
  0 < n1 → 0 < n2 →
  m1 ∈ _motif_purine_run policy sequence n1 exclude →
  m2 ∈ _motif_pyrimidine_run policy sequence n2 exclude →
  start m1 ≤ p < stop m1 →
  ¬ (start m2 ≤ p < stop m2).
Proof.
  intros Hn1 Hn2 H1 H2.
  apply (slices_from_regex_spec _ _ (class_run "AGR" n1)) in H1; [|done].
  apply (slices_from_regex_spec _ _ (class_run "CTUY" n2)) in H2; [|done].
  eapply motif_occurrence_disjoint; [|exact H1|exact H2].
  intros c Hc Hc'. simpl in Hc, Hc'.
  repeat (apply elem_of_cons in Hc as [->|Hc];
          [repeat (apply elem_of_cons in Hc' as [?|Hc'];
                   [discriminate|]);
           by apply elem_of_nil in Hc'|]).
  by apply elem_of_nil in Hc.
Qed.

Lemma purine_pyrimidine_disjoint_witness :
  ¬ (5 ≤ 4 < 9).
Proof.
  pose (s := {| type := DNA; _string := "GGTGGCCCC";
                id := ""; description := ""; quality := None |}).
  apply (purine_pyrimidine_disjoint DeleteBeforeMatching s 4 4
           (Some [Slice 2 3]) (Slice 0 5) (Slice 5 9) 4
           (Nat.lt_0_succ 3) (Nat.lt_0_succ 3)).
  - assert (_motif_purine_run DeleteBeforeMatching s 4 (Some [Slice 2 3])
            = [Slice 0 5]) as -> by (vm_compute; reflexivity).
    left.
  - assert (_motif_pyrimidine_run DeleteBeforeMatching s 4
              (Some [Slice 2 3]) = [Slice 5 9]) as ->
      by (vm_compute; reflexivity).
    left.
  - simpl. lia.
Defined.

(** X14. Raising the minimum length only removes spans: a span found
    with minimum length [n2] is found with any smaller minimum length
    [n1] of at least one, by either detector and under either policy
    for excluded spans. *)
Theorem motif_min_length_monotone (policy : exclusion_policy)
    (sequence : Sequence) (n1 n2 : nat)
    (exclude : option (list slice)) (m : slice) :
  0 < n1 → n1 ≤ n2 →
  (m ∈ _motif_purine_run policy sequence n2 exclude →
   m ∈ _motif_purine_run policy sequence n1 exclude) ∧
  (m ∈ _motif_pyrimidine_run policy sequence n2 exclude →
   m ∈ _motif_pyrimidine_run policy sequence n1 exclude).
Proof.
  intros Hn1 Hle.
  assert (∀ cls text, motif_occurrence policy cls text exclude n2 m →
                      motif_occurrence policy cls text exclude n1 m) as Hmono.
  { intros cls text. unfold motif_occurrence. destruct policy.
    - intros (? & ? & ?). split_and!; [done|lia|done].
    - intros (i & j & ? & ? & ?). exists i, j. split_and!; [done|lia|done]. }
  split; intros Hm.
  - apply (slices_from_regex_spec _ _ (class_run "AGR" n2)) in Hm;
      [|simpl; lia].
    apply (slices_from_regex_spec _ _ (class_run "AGR" n1)); [done|].
    by apply Hmono.
  - apply (slices_from_regex_spec _ _ (class_run "CTUY" n2)) in Hm;
      [|simpl; lia].
    apply (slices_from_regex_spec _ _ (class_run "CTUY" n1)); [done|].
    by apply Hmono.
Qed.

Lemma motif_min_length_monotone_witness :
  Slice 0 6 ∈ _motif_purine_run FilterMatches
    {| type := DNA; _string := "AGGGGGT"; id := ""; description := "";
       quality := None |} 2 None.
Proof.
  apply (proj1 (motif_min_length_monotone FilterMatches
    {| type := DNA; _string := "AGGGGGT"; id := ""; description := "";
       quality := None |} 2 6 None (Slice 0 6) (Nat.lt_0_succ 1)
    (le_S _ _ (le_S _ _ (le_S _ _ (le_S _ _ (le_n 2))))))).
  vm_compute. left.
Defined.

(** X15. A sequence with fewer symbols than the minimum length, the
    empty sequence included, has no purine run and no pyrimidine run,
    under either policy for excluded spans. *)
Theorem motif_short_sequence (policy : exclusion_policy)
    (sequence : Sequence) (min_length : nat)
    (exclude : option (list slice)) :
  len sequence < min_length →
  _motif_purine_run policy sequence min_length exclude = [] ∧
  _motif_pyrimidine_run policy sequence min_length exclude = [].
Proof.
  intros Hshort.
  assert (∀ chars, slices_from_regex policy sequence
                     (class_run chars min_length) exclude = []) as Hnone.
  { intros chars. apply elem_of_nil_inv. intros m Hm.
    pose proof (slices_from_regex_bounds policy sequence
                  (class_run chars min_length) exclude) as Hb.
    eapply Forall_forall in Hb; [|simpl; lia|exact Hm].
    simpl in Hb. lia. }
  split; apply Hnone.
Qed.

Lemma motif_short_sequence_witness :
  _motif_purine_run DeleteBeforeMatching
    {| type := DNA; _string := "AGG"; id := ""; description := "";
       quality := None |} 4 None = [].
Proof.
  apply (motif_short_sequence DeleteBeforeMatching
    {| type := DNA; _string := "AGG"; id := ""; description := "";
       quality := None |} 4 None).
  vm_compute. lia.
Defined.

(** ** Complement and reversal together *)

(** X16. Complementing and reversing commute: when the forward
    complement [r] and the reverse complement [rc] of a sequence exist,
    the reverse complement of [r] and the forward complement of [rc]
    are the same sequence, or raise the same exception.  No property of
    the complement map is needed. *)
Theorem complement_reverse_commute (self r rc : Sequence) :
  complement self false = Ok r →
  reverse_complement self = Ok rc →
  reverse_complement r = complement rc false.
Proof.
  intros (l & Hl & ->)%complement_Ok (l' & Hl' & ->)%complement_Ok.
  unfold reversed in Hl'.
  rewrite (comprehension_reverse _ _ _ Hl) in Hl'. injection Hl' as <-.
  unfold reverse_complement, complement, reversed.
  rewrite !iter_join. simpl.
  destruct (comprehension _ (reverse l)) as [symbols|e]; simpl; [|done].
  f_equal. unfold _to, complement_quality_of, _has_quality,
    quality_reversed. simpl.
  by destruct (quality self).
Qed.

Lemma complement_reverse_commute_witness :
  reverse_complement
    {| type := DNA; _string := "AAGTAA"; id := "s"; description := "";
       quality := Some [0; 1; 2; 3; 4; 5]%Z |}
  = complement
      {| type := DNA; _string := "AATGAA"; id := "s"; description := "";
         quality := Some [5; 4; 3; 2; 1; 0]%Z |} false.
Proof.
  apply (complement_reverse_commute
    {| type := DNA; _string := "TTCATT"; id := "s"; description := "";
       quality := Some [0; 1; 2; 3; 4; 5]%Z |}).
  - vm_compute; reflexivity.
  - vm_compute; reflexivity.
Defined.
